(** * Product price tracker: store, registry, tracking round and API

    A shallow embedding of the Go program (models.go, database.go,
    tracker.go, api.go).

    - float64 is Rocq's primitive binary64 [float]; the comparison
      [price > 0] is [PrimFloat.ltb 0 price].
    - Go strings are byte strings: [string].  SQLite's default BINARY
      collation and Go's [<] on strings both compare bytewise, which is
      [String.compare].
    - time.Time is an instant on a line, [Z]; [time.Now()] is an input.
    - A SQL table is the list of its rows in rowid order.  The column
      [products.created_at] is never read by the program and is left out.
    - Every call into database/sql may fail for reasons outside the
      program (I/O, locking, a closed handle).  The driver's verdict is
      an input [io : option error] of each store operation: [None] when
      the statement runs, [Some e] when Exec, Query or Scan reports [e].
    - Goroutines and channels of a tracking round are a labelled
      transition system whose labels are the scheduler's and the
      environment's choices. *)

From Stdlib Require Import Floats ZArith.
From stdpp Require Import gmap strings list sorting.

Open Scope Z_scope.

(* 0.2 is read as the nearest binary64, as Go reads the constant. *)
Set Warnings "-inexact-float".

(** ** models.go *)

Definition time := Z.

(** Go's [error] interface, by its message; [nil] is [None]. *)
Definition error := string.

Record Product := {
  ID : string;
  Name : string;
  URL : string
}.

Record PriceEntry := {
  EntryID : Z;
  ProductID : string;
  Price : float;
  Timestamp : time
}.

(** The embedded [Product] is the field [Product_of]; the two pointer
    fields are [None] when nil. *)
Record ProductWithLatestPrice := {
  Product_of : Product;
  LatestPrice : option float;
  LastUpdated : option time
}.

(** ** database.go *)

(** The state behind [*sql.DB]: both tables, the AUTOINCREMENT counter of
    [price_entries] (SQLite's sqlite_sequence row) and the connection's
    [PRAGMA foreign_keys].  SQLite checks a FOREIGN KEY clause only on a
    connection whose pragma is ON. *)
Record Database := {
  products_tbl : list Product;
  price_entries : list PriceEntry;
  sqlite_sequence : Z;
  foreign_keys : bool
}.

(** [ORDER BY name]: ascending, bytewise. *)
Definition name_le (a b : string) : Prop := String.leb a b = true.

(** [ORDER BY timestamp DESC]: the newer row first. *)
Definition newer_first (a b : PriceEntry) : Prop := Timestamp b ≤ Timestamp a.

#[global] Instance name_le_dec a b : Decision (name_le a b).
Proof. unfold name_le. apply _. Defined.

#[global] Instance newer_first_dec a b : Decision (newer_first a b).
Proof. unfold newer_first. apply _. Defined.

Definition by_name (a b : Product) : Prop := name_le (Name a) (Name b).

Definition row_by_name (a b : ProductWithLatestPrice) : Prop :=
  by_name (Product_of a) (Product_of b).

#[global] Instance by_name_dec a b : Decision (by_name a b).
Proof. unfold by_name. apply _. Defined.

#[global] Instance row_by_name_dec a b : Decision (row_by_name a b).
Proof. unfold row_by_name. apply _. Defined.

(** [WHERE product_id = ?] *)
Definition entries_of (productID : string) (entries : list PriceEntry) : list PriceEntry :=
  filter (λ e, ProductID e = productID) entries.

(** [WHERE id = ?] *)
Definition rows_with_id (productID : string) (rows : list Product) : list Product :=
  filter (λ p, ID p = productID) rows.

(** [LIMIT ?]: a negative bound means no bound. *)
Definition sql_limit {A} (limit : Z) (rows : list A) : list A :=
  if limit <? 0 then rows else take (Z.to_nat limit) rows.

(** Every price entry refers to a row of [products]. *)
Definition referential_integrity (d : Database) : Prop :=
  ∀ e, e ∈ price_entries d → ProductID e ∈ ID <$> products_tbl d.

Module DB.

(** What [sql.Open("sqlite3", dbPath)] followed by [createTables] gives on
    a new file, once a driver of that name has opened it: two empty
    tables.  The data source name is the bare path and no statement of
    the program sets [PRAGMA foreign_keys], so the connection keeps
    SQLite's default, OFF. *)
Definition NewDatabase : Database :=
  {| products_tbl := []; price_entries := [];
     sqlite_sequence := 0; foreign_keys := false |}.

(** [INSERT OR REPLACE INTO products (id, name, url) VALUES (?, ?, ?)]:
    [id] is the primary key, so a row with the same id is deleted before
    the new row is added. *)
Definition InsertProduct (io : option error) (d : Database) (product : Product)
  : Database * option error :=
  match io with
  | Some err => (d, Some err)
  | None =>
      ({| products_tbl :=
            filter (λ p, ID p ≠ ID product) (products_tbl d) ++ [product];
          price_entries := price_entries d;
          sqlite_sequence := sqlite_sequence d;
          foreign_keys := foreign_keys d |}, None)
  end.

(** [SELECT id, name, url FROM products ORDER BY name] *)
Definition GetAllProducts (io : option error) (d : Database)
  : list Product * option error :=
  match io with
  | Some err => ([], Some err)
  | None => (merge_sort by_name (products_tbl d), None)
  end.

(** One partition of the window [PARTITION BY product_id ORDER BY
    timestamp DESC]. *)
Definition partition_of (productID : string) (entries : list PriceEntry)
  : list PriceEntry :=
  merge_sort newer_first (entries_of productID entries).

(** The rows the sub-select [pe] yields for one partition: the product
    id, FIRST_VALUE(price), FIRST_VALUE(timestamp) and ROW_NUMBER().  The
    row numbers of a partition differ, so DISTINCT removes nothing. *)
Definition window_rows (productID : string) (entries : list PriceEntry)
  : list (string * float * time * nat) :=
  match partition_of productID entries with
  | [] => []
  | (first :: _) as part =>
      imap (λ i _, (productID, Price first, Timestamp first, S i)) part
  end.

(** [products p LEFT JOIN pe ON p.id = pe.product_id AND pe.rn = 1], for
    one row [p], scanned into a [ProductWithLatestPrice]: a joined row
    has both columns valid, an unmatched [p] has both NULL. *)
Definition left_join_latest (entries : list PriceEntry) (p : Product)
  : list ProductWithLatestPrice :=
  match filter (λ r, r.2 = 1%nat) (window_rows (ID p) entries) with
  | [] => [ {| Product_of := p; LatestPrice := None; LastUpdated := None |} ]
  | rows =>
      (λ r, {| Product_of := p;
               LatestPrice := Some r.1.1.2;
               LastUpdated := Some r.1.2 |}) <$> rows
  end.

Definition GetProductsWithLatestPrices (io : option error) (d : Database)
  : list ProductWithLatestPrice * option error :=
  match io with
  | Some err => ([], Some err)
  | None =>
      (merge_sort row_by_name
         (products_tbl d ≫= left_join_latest (price_entries d)), None)
  end.

(** [INSERT INTO price_entries (product_id, price, timestamp) VALUES (?, ?, ?)].
    SQLite binds a NaN as NULL, which [price REAL NOT NULL] refuses.  The
    clause [FOREIGN KEY (product_id) REFERENCES products (id)] is checked
    only when the connection has [foreign_keys] on. *)
Definition InsertPriceEntry (io : option error) (d : Database)
    (productID : string) (price : float) (timestamp : time)
  : Database * option error :=
  match io with
  | Some err => (d, Some err)
  | None =>
      if is_nan price then
        (d, Some "NOT NULL constraint failed: price_entries.price"%string)
      else if foreign_keys d && bool_decide (rows_with_id productID (products_tbl d) = [])
      then (d, Some "FOREIGN KEY constraint failed"%string)
      else
        ({| products_tbl := products_tbl d;
            price_entries :=
              price_entries d ++
              [ {| EntryID := sqlite_sequence d + 1; ProductID := productID;
                   Price := price; Timestamp := timestamp |} ];
            sqlite_sequence := sqlite_sequence d + 1;
            foreign_keys := foreign_keys d |}, None)
  end.

(** [SELECT id, product_id, price, timestamp FROM price_entries
     WHERE product_id = ? ORDER BY timestamp DESC LIMIT ?] *)
Definition GetPriceHistory (io : option error) (d : Database)
    (productID : string) (limit : Z) : list PriceEntry * option error :=
  match io with
  | Some err => ([], Some err)
  | None =>
      (sql_limit limit (merge_sort newer_first (entries_of productID (price_entries d))),
       None)
  end.

(** [SELECT COUNT( * ) FROM products WHERE id = ?]; when the scan fails
    [count] keeps its zero value. *)
Definition ProductExists (io : option error) (d : Database) (productID : string)
  : bool * option error :=
  match io with
  | Some err => (false, Some err)
  | None =>
      (bool_decide (0 < Z.of_nat (length (rows_with_id productID (products_tbl d)))), None)
  end.

End DB.

(** ** tracker.go *)

(** [pt.db] and the in-memory map [pt.products]; the mutex is not
    modelled, every operation below runs as one atomic step. *)
Record PriceTracker := {
  db : Database;
  products : gmap string Product
}.

Module Tracker.

Definition loadProducts (io : option error) (pt : PriceTracker)
  : PriceTracker * option error :=
  match DB.GetAllProducts io (db pt) with
  | (_, Some err) => (pt, Some err)
  | (loaded, None) =>
      ({| db := db pt;
          products := foldl (λ m product, <[ID product := product]> m)
                            (products pt) loaded |}, None)
  end.

(** A failure to load is only logged. *)
Definition NewPriceTracker (io : option error) (d : Database) : PriceTracker :=
  (loadProducts io {| db := d; products := ∅ |}).1.

Definition AddProduct (io : option error) (pt : PriceTracker) (product : Product)
  : PriceTracker * option error :=
  match DB.InsertProduct io (db pt) product with
  | (_, Some err) => (pt, Some err)
  | (d, None) =>
      ({| db := d; products := <[ID product := product]> (products pt) |}, None)
  end.

(** A failed read is logged and an empty slice is returned. *)
Definition GetProducts (io : option error) (pt : PriceTracker)
  : list ProductWithLatestPrice :=
  match DB.GetProductsWithLatestPrices io (db pt) with
  | (_, Some _) => []
  | (rows, None) => rows
  end.

(** [fmt.Errorf("product not found: %s", productID)] *)
Definition product_not_found (productID : string) : error :=
  ("product not found: " +:+ productID)%string.

(** [io_exists] and [io_history] are the driver's verdicts on the two
    reads. *)
Definition GetPriceHistory (io_exists io_history : option error)
    (pt : PriceTracker) (productID : string) (limit : Z)
  : list PriceEntry * option error :=
  match DB.ProductExists io_exists (db pt) productID with
  | (_, Some err) => ([], Some err)
  | (false, None) => ([], Some (product_not_found productID))
  | (true, None) => DB.GetPriceHistory io_history (db pt) productID limit
  end.

(** The copy-out at the head of [trackAllProducts]: Go ranges over a map
    in no fixed order, so any arrangement of the map's values may be the
    snapshot. *)
Definition is_snapshot (pt : PriceTracker) (snapshot : list Product) : Prop :=
  snapshot ≡ₚ (map_to_list (products pt)).*2.

(** The simulated measurement source.  [draw] is what [rand.Float64()]
    returned; the sleep only delays the caller.  A deployment replaces
    this function by a network call (see its comment), and the worker
    below takes whatever float64 the source returns. *)
Definition fetchPrice (draw : float) (product : Product) : float :=
  let basePrice :=
    if decide (ID product = "laptop-1"%string) then 1200%float
    else if decide (ID product = "phone-1"%string) then 800%float
    else if decide (ID product = "tablet-1"%string) then 500%float
    else 100%float in
  let variation := ((draw - 0.5) * 0.2)%float in
  (basePrice * (1 + variation))%float.

(** The body of the loop of [priceWorker], after [fetchPrice] returned
    [price] and with [now] the value of [time.Now()]: the entry sent on
    [resultChan], if any. *)
Definition priceWorker_body (product : Product) (price : float) (now : time)
  : option PriceEntry :=
  if (0 <? price)%float then
    Some {| EntryID := 0; ProductID := ID product; Price := price; Timestamp := now |}
  else None.

End Tracker.

(** ** One tracking round: [trackAllProducts] and [priceWorker] *)

Module Round.

(** Where a worker goroutine stands in [priceWorker]. *)
Inductive Worker :=
  | Receiving                   (* at [range productChan] *)
  | Fetching (product : Product) (* inside [fetchPrice(product)] *)
  | Sending (entry : PriceEntry) (* at [resultChan <- entry] *)
  | Done.                       (* returned; [wg.Done()] ran *)

Definition is_done (w : Worker) : bool :=
  match w with Done => true | _ => false end.

Record chan (A : Type) := { buf : list A; closed : bool }.
Arguments buf {A} _.
Arguments closed {A} _.

(** What the round did, oldest first. *)
Inductive Event :=
  | EvFetch (w : nat) (product : Product) (price : float) (now : time)
  | EvForward (w : nat) (entry : PriceEntry)
  | EvInsert (entry : PriceEntry) (err : option error).

Record State := {
  capacity : nat;                 (* [len(products)], of both channels *)
  unsent : list Product;          (* what the sending goroutine has left *)
  productChan : chan Product;
  workers : list Worker;
  resultChan : chan PriceEntry;
  returned : bool;                (* [trackAllProducts] has returned *)
  store : Database;
  events : list Event
}.

Definition numWorkers : nat := 5.

(** The state [trackAllProducts] builds from its snapshot.  With an empty
    snapshot it returns before it makes a channel or starts a goroutine:
    nothing is live, which is the state of a round with no worker whose
    channels are closed and whose caller has returned. *)
Definition trackAllProducts (snapshot : list Product) (d : Database) : State :=
  match snapshot with
  | [] =>
      {| capacity := 0; unsent := [];
         productChan := {| buf := []; closed := true |};
         workers := [];
         resultChan := {| buf := []; closed := true |};
         returned := true; store := d; events := [] |}
  | _ =>
      {| capacity := length snapshot; unsent := snapshot;
         productChan := {| buf := []; closed := false |};
         workers := replicate numWorkers Receiving;
         resultChan := {| buf := []; closed := false |};
         returned := false; store := d; events := [] |}
  end.

(** The choices of the scheduler and of the environment. *)
Inductive Action :=
  | SendProduct                 (* sender: [productChan <- product] *)
  | CloseProducts               (* sender: [close(productChan)] *)
  | Receive (w : nat)           (* worker [w] takes a product *)
  | Exit (w : nat)              (* worker [w] sees the channel closed and drained *)
  | Fetch (w : nat) (price : float) (now : time)
                                (* [fetchPrice] returns [price] to worker [w] *)
  | Forward (w : nat)           (* worker [w]: [resultChan <- entry] *)
  | CloseResults                (* [wg.Wait()] returns; [close(resultChan)] *)
  | Collect (io : option error) (* main: one entry received and inserted *)
  | Return.                     (* main: [range resultChan] ends *)

Definition set_unsent (x : list Product) (s : State) : State :=
  {| capacity := capacity s; unsent := x; productChan := productChan s;
     workers := workers s; resultChan := resultChan s; returned := returned s;
     store := store s; events := events s |}.

Definition set_productChan (x : chan Product) (s : State) : State :=
  {| capacity := capacity s; unsent := unsent s; productChan := x;
     workers := workers s; resultChan := resultChan s; returned := returned s;
     store := store s; events := events s |}.

Definition set_worker (w : nat) (x : Worker) (s : State) : State :=
  {| capacity := capacity s; unsent := unsent s; productChan := productChan s;
     workers := <[w := x]> (workers s); resultChan := resultChan s;
     returned := returned s; store := store s; events := events s |}.

Definition set_resultChan (x : chan PriceEntry) (s : State) : State :=
  {| capacity := capacity s; unsent := unsent s; productChan := productChan s;
     workers := workers s; resultChan := x; returned := returned s;
     store := store s; events := events s |}.

Definition set_returned (x : bool) (s : State) : State :=
  {| capacity := capacity s; unsent := unsent s; productChan := productChan s;
     workers := workers s; resultChan := resultChan s; returned := x;
     store := store s; events := events s |}.

Definition set_store (x : Database) (s : State) : State :=
  {| capacity := capacity s; unsent := unsent s; productChan := productChan s;
     workers := workers s; resultChan := resultChan s; returned := returned s;
     store := x; events := events s |}.

Definition emit (ev : Event) (s : State) : State :=
  {| capacity := capacity s; unsent := unsent s; productChan := productChan s;
     workers := workers s; resultChan := resultChan s; returned := returned s;
     store := store s; events := events s ++ [ev] |}.

(** A send needs an open channel with room in its buffer (a send on a
    closed channel panics, one on a full buffer blocks). *)
Definition can_send {A} (cap : nat) (c : chan A) : bool :=
  negb (closed c) && bool_decide (length (buf c) < cap)%nat.

Definition push {A} (x : A) (c : chan A) : chan A :=
  {| buf := buf c ++ [x]; closed := closed c |}.

Definition close {A} (c : chan A) : chan A :=
  {| buf := buf c; closed := true |}.

(** One step of one goroutine; [None] when the action is not enabled. *)
Definition step (a : Action) (s : State) : option State :=
  match a with
  | SendProduct =>
      match unsent s with
      | product :: rest =>
          if can_send (capacity s) (productChan s) then
            Some (set_productChan (push product (productChan s)) (set_unsent rest s))
          else None
      | [] => None
      end
  | CloseProducts =>
      match unsent s with
      | [] => if closed (productChan s) then None
              else Some (set_productChan (close (productChan s)) s)
      | _ => None
      end
  | Receive w =>
      match workers s !! w, buf (productChan s) with
      | Some Receiving, product :: rest =>
          Some (set_worker w (Fetching product)
                  (set_productChan {| buf := rest; closed := closed (productChan s) |} s))
      | _, _ => None
      end
  | Exit w =>
      match workers s !! w, buf (productChan s) with
      | Some Receiving, [] =>
          if closed (productChan s) then Some (set_worker w Done s) else None
      | _, _ => None
      end
  | Fetch w price now =>
      match workers s !! w with
      | Some (Fetching product) =>
          Some (emit (EvFetch w product price now)
                  (set_worker w
                     match Tracker.priceWorker_body product price now with
                     | Some entry => Sending entry
                     | None => Receiving
                     end s))
      | _ => None
      end
  | Forward w =>
      match workers s !! w with
      | Some (Sending entry) =>
          if can_send (capacity s) (resultChan s) then
            Some (emit (EvForward w entry)
                    (set_worker w Receiving
                       (set_resultChan (push entry (resultChan s)) s)))
          else None
      | _ => None
      end
  | CloseResults =>
      if forallb is_done (workers s) && negb (closed (resultChan s)) then
        Some (set_resultChan (close (resultChan s)) s)
      else None
  | Collect io =>
      if returned s then None else
      match buf (resultChan s) with
      | entry :: rest =>
          let r := DB.InsertPriceEntry io (store s)
                     (ProductID entry) (Price entry) (Timestamp entry) in
          Some (emit (EvInsert entry r.2)
                  (set_store r.1
                     (set_resultChan {| buf := rest; closed := closed (resultChan s) |} s)))
      | [] => None
      end
  | Return =>
      if returned s then None else
      match buf (resultChan s) with
      | [] => if closed (resultChan s) then Some (set_returned true s) else None
      | _ => None
      end
  end.

(** A schedule run from a state. *)
Fixpoint run (sched : list Action) (s : State) : option State :=
  match sched with
  | [] => Some s
  | a :: rest => match step a s with Some s' => run rest s' | None => None end
  end.

(** Readings of the event log. *)
Definition fetches (evs : list Event) : list (nat * Product) :=
  evs ≫= λ ev, match ev with EvFetch w product _ _ => [(w, product)] | _ => [] end.

Definition fetched (evs : list Event) : list Product := (fetches evs).*2.

(** The entries the fetches of the log gave rise to. *)
Definition produced (evs : list Event) : list PriceEntry :=
  evs ≫= λ ev, match ev with
               | EvFetch _ product price now =>
                   option_list (Tracker.priceWorker_body product price now)
               | _ => []
               end.

Definition forwarded (evs : list Event) : list PriceEntry :=
  evs ≫= λ ev, match ev with EvForward _ entry => [entry] | _ => [] end.

Definition inserts (evs : list Event) : list (PriceEntry * option error) :=
  evs ≫= λ ev, match ev with EvInsert entry err => [(entry, err)] | _ => [] end.

(** What the workers hold. *)
Definition holding (ws : list Worker) : list Product :=
  ws ≫= λ w, match w with Fetching product => [product] | _ => [] end.

Definition sending (ws : list Worker) : list PriceEntry :=
  ws ≫= λ w, match w with Sending entry => [entry] | _ => [] end.

(** The effect on the store of one insert of the log: the row is added
    when the insert returned nil, and nothing changes otherwise. *)
Definition persist (d : Database) (attempt : PriceEntry * option error) : Database :=
  match attempt.2 with
  | None =>
      {| products_tbl := products_tbl d;
         price_entries :=
           price_entries d ++
           [ {| EntryID := sqlite_sequence d + 1; ProductID := ProductID attempt.1;
                Price := Price attempt.1; Timestamp := Timestamp attempt.1 |} ];
         sqlite_sequence := sqlite_sequence d + 1;
         foreign_keys := foreign_keys d |}
  | Some _ => d
  end.

(** What holds of every state of a round on [snapshot] started on the
    store [d0]. *)
Record Inv (snapshot : list Product) (d0 : Database) (s : State) : Prop := {
  inv_capacity : capacity s = length snapshot;
  inv_flow :
    snapshot ≡ₚ fetched (events s) ++ holding (workers s)
                ++ buf (productChan s) ++ unsent s;
  inv_produced :
    produced (events s) ≡ₚ forwarded (events s) ++ sending (workers s);
  inv_out :
    forwarded (events s) = (inserts (events s)).*1 ++ buf (resultChan s);
  inv_store : store s = foldl persist d0 (inserts (events s));
  inv_products_closed : closed (productChan s) = true → unsent s = [];
  inv_all_done :
    forallb is_done (workers s) = true →
    closed (productChan s) = true ∧ buf (productChan s) = [];
  inv_results_closed :
    closed (resultChan s) = true → forallb is_done (workers s) = true;
  inv_returned :
    returned s = true → closed (resultChan s) = true ∧ buf (resultChan s) = [];
  inv_workers : (length (workers s) ≤ numWorkers)%nat;
  inv_fetch_workers :
    Forall (λ wp : nat * Product, (wp.1 < numWorkers)%nat) (fetches (events s))
}.

(** A bound on the number of steps left. *)
Definition worker_weight (w : Worker) : nat :=
  match w with Receiving => 1 | Fetching _ => 4 | Sending _ => 3 | Done => 0 end.

Definition measure (s : State) : nat :=
  5 * length (unsent s) + 4 * length (buf (productChan s))
  + sum_list_with worker_weight (workers s) + length (buf (resultChan s))
  + (if closed (productChan s) then 0 else 1)
  + (if closed (resultChan s) then 0 else 1)
  + (if returned s then 0 else 1).

End Round.

(** ** api.go *)

Module API.

Inductive Body :=
  | JSONProducts (products : list ProductWithLatestPrice)
  | JSONHistory (product_id : string) (history : list PriceEntry) (count : Z)
  | JSONError (message : string).

Record Response := { status : Z; body : Body }.

Definition StatusOK : Z := 200.
Definition StatusBadRequest : Z := 400.
Definition StatusNotFound : Z := 404.

Definition writeJSON (code : Z) (data : Body) : Response :=
  {| status := code; body := data |}.

Definition writeError (code : Z) (message : string) : Response :=
  writeJSON code (JSONError message).

Definition handleGetProducts (io : option error) (pt : PriceTracker) : Response :=
  writeJSON StatusOK (JSONProducts (Tracker.GetProducts io pt)).

(** [parsedLimit] is what [strconv.Atoi] made of the [limit] parameter,
    [None] when the parameter is absent or not a number. *)
Definition handleGetPriceHistory (io_exists io_history : option error)
    (pt : PriceTracker) (productID : string) (parsedLimit : option Z) : Response :=
  if decide (productID = ""%string) then
    writeError StatusBadRequest "Product ID is required"
  else
    let limit :=
      match parsedLimit with
      | Some n => if 0 <? n then n else 50
      | None => 50
      end in
    match Tracker.GetPriceHistory io_exists io_history pt productID limit with
    | (_, Some err) => writeError StatusNotFound err
    | (history, None) =>
        writeJSON StatusOK (JSONHistory productID history (Z.of_nat (length history)))
    end.

End API.

(** ** The scheduler: [StartTracking] *)

Module Scheduler.

(** What the [select] of the loop takes next: a tick of the ticker,
    together with the round that the tick starts (the snapshot the round
    takes and the schedule of its goroutines), or the cancellation of the
    context.  A tick that fires while a round runs is not taken: the
    loop calls [trackAllProducts] and waits for its return.  The
    interval only paces the ticks ([time.NewTicker] needs it positive,
    and [main] passes 30 seconds). *)
Inductive Signal :=
  | Tick (snapshot : list Product) (sched : list Round.Action)
  | Cancelled.

(** Whether the loop has returned or waits for its next signal. *)
Inductive Loop := Waiting | Stopped.

(** [StartTracking pt signals loop pt']: on the signals taken so far the
    loop has brought the tracker from [pt] to [pt'].  A round is run to
    its return before the next signal is taken, and nothing is taken
    after the cancellation. *)
Inductive StartTracking : PriceTracker → list Signal → Loop → PriceTracker → Prop :=
  | tracking_waits pt : StartTracking pt [] Waiting pt
  | tracking_stops pt rest : StartTracking pt (Cancelled :: rest) Stopped pt
  | tracking_round pt snapshot sched s rest loop pt' :
      Tracker.is_snapshot pt snapshot →
      Round.run sched (Round.trackAllProducts snapshot (db pt)) = Some s →
      Round.returned s = true →
      StartTracking {| db := Round.store s; products := products pt |} rest loop pt' →
      StartTracking pt (Tick snapshot sched :: rest) loop pt'.

(** The rounds the loop runs on a sequence of signals. *)
Fixpoint rounds (signals : list Signal) : nat :=
  match signals with
  | Tick _ _ :: rest => S (rounds rest)
  | _ => 0
  end.

End Scheduler.

(** * Vocabulary of the properties *)


(** The registry maps each id to a product of that id. *)
Definition registry_keyed (pt : PriceTracker) : Prop :=
  ∀ k p, products pt !! k = Some p → ID p = k.

(** The states the store can be in: a new database, changed by the two
    inserts of the program with any arguments and any verdict of the
    driver. *)
Inductive store_reachable : Database → Prop :=
  | reach_new : store_reachable DB.NewDatabase
  | reach_product io d product :
      store_reachable d → store_reachable (DB.InsertProduct io d product).1
  | reach_entry io d productID price timestamp :
      store_reachable d →
      store_reachable (DB.InsertPriceEntry io d productID price timestamp).1.

(** What the tracker keeps of its registry and its store: the registry is
    keyed by id, every registered id has a row in [products], and every
    price entry refers to a row of [products]. *)
Definition tracker_ok (pt : PriceTracker) : Prop :=
  registry_keyed pt
  ∧ (∀ k p, products pt !! k = Some p → k ∈ ID <$> products_tbl (db pt))
  ∧ referential_integrity (db pt).

(** The registry holds exactly the rows of [products], under their ids. *)
Definition registry_mirrors_store (pt : PriceTracker) : Prop :=
  ∀ k p, products pt !! k = Some p ↔ p ∈ products_tbl (db pt) ∧ ID p = k.

(** The trackers the program can have: started on a new database, then
    changed by registrations, by the tracking loop, and by a restart on
    the database it has written, with any verdicts of the driver. *)
Inductive tracker_reachable : PriceTracker → Prop :=
  | treach_start io : tracker_reachable (Tracker.NewPriceTracker io DB.NewDatabase)
  | treach_add io pt product :
      tracker_reachable pt → tracker_reachable (Tracker.AddProduct io pt product).1
  | treach_track pt signals loop pt' :
      tracker_reachable pt → Scheduler.StartTracking pt signals loop pt' →
      tracker_reachable pt'
  | treach_restart io pt :
      tracker_reachable pt → tracker_reachable (Tracker.NewPriceTracker io (db pt)).

(** ** Sample data *)

Definition sample_a : Product := {| ID := "a"; Name := "Alpha"; URL := "https://example.com/a" |}.
Definition sample_b : Product := {| ID := "b"; Name := "Beta"; URL := "https://example.com/b" |}.

Definition sample_db : Database :=
  (DB.InsertProduct None (DB.InsertProduct None DB.NewDatabase sample_a).1 sample_b).1.

(** Two products, fetched by workers 3 and 0; the source has no value for
    the second. *)
Definition two_product_schedule : list Round.Action :=
  [ Round.SendProduct; Round.Receive 3; Round.SendProduct; Round.Receive 0;
    Round.CloseProducts; Round.Exit 1;
    Round.Fetch 3 10 5; Round.Fetch 0 (-1) 6; Round.Forward 3;
    Round.Collect None; Round.Exit 0; Round.Exit 2; Round.Exit 3; Round.Exit 4;
    Round.CloseResults; Round.Return ].

(** Two products, both with a value; the first insert fails. *)
Definition failing_insert_schedule : list Round.Action :=
  [ Round.SendProduct; Round.SendProduct; Round.CloseProducts;
    Round.Receive 0; Round.Receive 1;
    Round.Fetch 0 10 5; Round.Fetch 1 20 6; Round.Forward 0; Round.Forward 1;
    Round.Collect (Some "database is locked"%string);
    Round.Exit 0; Round.Exit 1; Round.Exit 2; Round.Exit 3; Round.Exit 4;
    Round.Collect None; Round.CloseResults; Round.Return ].


Definition sample_tracker : PriceTracker :=
  (Tracker.AddProduct None
     (Tracker.AddProduct None (Tracker.NewPriceTracker None DB.NewDatabase) sample_a).1
     sample_b).1.

(** The scenario of the specification: a, b and c are registered, and in
    one round the source returns 10 for a, -1 for b and 20 for c. *)
Definition sample_c : Product := {| ID := "c"; Name := "Gamma"; URL := "https://example.com/c" |}.

Definition scenario_tracker : PriceTracker :=
  (Tracker.AddProduct None sample_tracker sample_c).1.

Definition scenario_schedule : list Round.Action :=
  [ Round.SendProduct; Round.SendProduct; Round.SendProduct; Round.CloseProducts;
    Round.Receive 0; Round.Receive 1; Round.Receive 2;
    Round.Fetch 1 (-1) 11; Round.Fetch 2 20 12; Round.Fetch 0 10 13;
    Round.Forward 2; Round.Forward 0;
    Round.Exit 0; Round.Exit 1; Round.Exit 2; Round.Exit 3; Round.Exit 4;
    Round.CloseResults; Round.Collect None; Round.Collect None; Round.Return ].

(** * Properties *)

(** ** The two orders of the queries *)

Lemma string_leb_trans (s1 s2 s3 : string) :
  String.leb s1 s2 = true → String.leb s2 s3 = true → String.leb s1 s3 = true.
Proof.
  unfold String.leb. revert s2 s3.
  induction s1 as [|a s1 IH]; intros [|b s2] [|c s3]; simpl; try done.
  unfold Ascii.compare.
  destruct (N.compare_spec (Ascii.N_of_ascii a) (Ascii.N_of_ascii b)) as [Hab|Hab|Hab];
    destruct (N.compare_spec (Ascii.N_of_ascii b) (Ascii.N_of_ascii c)) as [Hbc|Hbc|Hbc];
    try done.
  - rewrite Hab, Hbc, N.compare_refl. apply IH.
  - intros _ _. rewrite Hab. by apply N.compare_lt_iff in Hbc as ->.
  - intros _ _. rewrite <- Hbc. by apply N.compare_lt_iff in Hab as ->.
  - intros _ _. assert (Ascii.N_of_ascii a < Ascii.N_of_ascii c)%N as Hac by lia.
    by apply N.compare_lt_iff in Hac as ->.
Qed.

#[global] Instance name_le_transitive : Transitive name_le.
Proof. intros a b c. apply string_leb_trans. Qed.

#[global] Instance name_le_total : Total name_le.
Proof. intros a b. apply String.leb_total. Qed.

#[global] Instance by_name_transitive : Transitive by_name.
Proof. intros a b c. unfold by_name. apply name_le_transitive. Qed.

#[global] Instance by_name_total : Total by_name.
Proof. intros a b. unfold by_name. apply name_le_total. Qed.

#[global] Instance row_by_name_transitive : Transitive row_by_name.
Proof. intros a b c. unfold row_by_name. apply by_name_transitive. Qed.

#[global] Instance row_by_name_total : Total row_by_name.
Proof. intros a b. unfold row_by_name. apply by_name_total. Qed.

#[global] Instance newer_first_transitive : Transitive newer_first.
Proof. intros a b c. unfold newer_first. lia. Qed.

#[global] Instance newer_first_total : Total newer_first.
Proof. intros a b. unfold newer_first. lia. Qed.

(** ** The store's queries *)

Section store_queries.
Implicit Types (d : Database) (e : PriceEntry) (p : Product).


Lemma elem_of_rows_with_id p productID rows :
  p ∈ rows_with_id productID rows ↔ ID p = productID ∧ p ∈ rows.
Proof. unfold rows_with_id. by rewrite list_elem_of_filter. Qed.

Lemma rows_with_id_nil productID rows :
  rows_with_id productID rows = [] ↔ productID ∉ ID <$> rows.
Proof.
  split.
  - intros Hnil [p [Hid Hp]]%list_elem_of_fmap.
    assert (p ∈ rows_with_id productID rows) as Hin
      by by apply elem_of_rows_with_id.
    rewrite Hnil in Hin. by apply not_elem_of_nil in Hin.
  - intros Hout. destruct (rows_with_id productID rows) as [|p l] eqn:E; [done|].
    assert (p ∈ rows_with_id productID rows) as [Hid Hp]%elem_of_rows_with_id
      by (rewrite E; left).
    destruct Hout. apply list_elem_of_fmap. eauto.
Qed.




Lemma ProductExists_ok d productID :
  DB.ProductExists None d productID
    = (bool_decide (productID ∈ ID <$> products_tbl d), None).
Proof.
  unfold DB.ProductExists. f_equal. apply bool_decide_ext.
  pose proof (rows_with_id_nil productID (products_tbl d)) as Hnil.
  destruct (rows_with_id productID (products_tbl d)) as [|p l]; simpl.
  - split; [lia|]. intros Hin. by apply Hnil in Hin.
  - split; [|lia]. intros _.
    destruct (decide (productID ∈ ID <$> products_tbl d)) as [|Hout]; [done|].
    by apply Hnil in Hout.
Qed.
End store_queries.

(** ** History *)



(** C6.  When both reads succeed, the tracker's [GetPriceHistory] returns
    the error "product not found: <id>" exactly when no row of
    [products] has the requested id; for an id that is present it returns
    no error and the store's history.  The handler passes the error on
    as the body of a 404 response, without a second attempt. *)
Theorem GetPriceHistory_not_found_iff
    (pt : PriceTracker) (productID : string) (limit : Z) :
  ((Tracker.GetPriceHistory None None pt productID limit).2
     = Some (Tracker.product_not_found productID)
   ↔ productID ∉ ID <$> products_tbl (db pt))
  ∧ (productID ∈ ID <$> products_tbl (db pt) ↔
     Tracker.GetPriceHistory None None pt productID limit
       = ((DB.GetPriceHistory None (db pt) productID limit).1, None))
  ∧ (productID ∉ ID <$> products_tbl (db pt) ↔
     Tracker.GetPriceHistory None None pt productID limit
       = ([], Some (Tracker.product_not_found productID)))
  ∧ (∀ parsedLimit,
       productID ≠ ""%string →
       productID ∉ ID <$> products_tbl (db pt) →
       API.handleGetPriceHistory None None pt productID parsedLimit
         = {| API.status := API.StatusNotFound;
              API.body := API.JSONError (Tracker.product_not_found productID) |}).
Proof.
  unfold Tracker.GetPriceHistory.
  rewrite ProductExists_ok.
  split_and!.
  - case_bool_decide as Hin; simpl; split; try done.
  - case_bool_decide as Hin; simpl; split; try done.
  - case_bool_decide as Hin; simpl; split; try done.
  - intros parsedLimit Hne Hout. unfold API.handleGetPriceHistory.
    destruct (decide (productID = ""%string)) as [|_]; [done|].
    unfold Tracker.GetPriceHistory. rewrite ProductExists_ok.
    rewrite bool_decide_eq_false_2 by done. done.
Qed.

(** ** Registration *)

Section registration.
Implicit Types (pt : PriceTracker) (p : Product).

Lemma rows_with_id_InsertProduct (d : Database) p :
  rows_with_id (ID p) (products_tbl (DB.InsertProduct None d p).1) = [p].
Proof.
  simpl. unfold rows_with_id. rewrite filter_app, list_filter_filter.
  rewrite filter_cons_True, filter_nil by done.
  replace (filter _ (products_tbl d)) with (@nil Product); [done|].
  symmetry. induction (products_tbl d) as [|q l IH]; [done|].
  rewrite filter_cons_False; [done | by intros [? ?]].
Qed.

Lemma elem_of_InsertProduct_other (d : Database) p q :
  ID q ≠ ID p →
  q ∈ products_tbl (DB.InsertProduct None d p).1 ↔ q ∈ products_tbl d.
Proof.
  intros Hne. simpl. rewrite elem_of_app, list_elem_of_filter, list_elem_of_singleton.
  split.
  - intros [[_ Hq] | ->]; [done | by destruct Hne].
  - intros Hq. by left.
Qed.
End registration.

(** C3.  Registering a product whose id the store already holds is not
    a failure.  When the driver reports no error, [AddProduct] returns
    nil; afterwards the one row of [products] with that id is the new
    product (its name and URL replace the old ones), the rows of other
    ids and the price entries are as before, and the in-memory registry
    maps the id to the new product. *)
Theorem AddProduct_existing_id_upsert (pt : PriceTracker) (product : Product) :
  ID product ∈ ID <$> products_tbl (db pt) →
  let r := Tracker.AddProduct None pt product in
  r.2 = None
  ∧ rows_with_id (ID product) (products_tbl (db r.1)) = [product]
  ∧ products r.1 !! ID product = Some product
  ∧ (∀ q, ID q ≠ ID product →
          (q ∈ products_tbl (db r.1) ↔ q ∈ products_tbl (db pt))
          ∧ products r.1 !! ID q = products pt !! ID q)
  ∧ price_entries (db r.1) = price_entries (db pt).
Proof.
  intros _ r. subst r. unfold Tracker.AddProduct.
  change (DB.InsertProduct None (db pt) product)
    with ((DB.InsertProduct None (db pt) product).1, @None error).
  cbn [fst snd db products]. split_and!.
  - done.
  - apply rows_with_id_InsertProduct.
  - apply lookup_insert_eq.
  - intros q Hne. split.
    + by apply elem_of_InsertProduct_other.
    + by rewrite lookup_insert_ne.
  - done.
Qed.

Lemma AddProduct_existing_id_upsert_witness :
  let old := {| ID := "laptop-1"; Name := "Gaming Laptop"; URL := "https://example.com/laptop-1" |} in
  let new := {| ID := "laptop-1"; Name := "Office Laptop"; URL := "https://example.com/l1" |} in
  let pt := (Tracker.AddProduct None (Tracker.NewPriceTracker None DB.NewDatabase) old).1 in
  ID new ∈ ID <$> products_tbl (db pt)
  ∧ (Tracker.AddProduct None pt new).2 = None
  ∧ products_tbl (db (Tracker.AddProduct None pt new).1) = [new].
Proof.
  intros old new pt.
  assert (ID new ∈ ID <$> products_tbl (db pt)) as Hin by (vm_compute; left).
  split; [exact Hin|]. split; [| reflexivity].
  apply (AddProduct_existing_id_upsert pt new Hin).
Defined.

(** ** Products with their latest price *)

Section latest_price.
Implicit Types (d : Database) (e : PriceEntry) (p : Product).





End latest_price.


(** ** The tracking round: invariant, progress and termination *)

Section round_steps.
Import Round.
Implicit Types (s : State) (a : Action) (ws : list Worker).

Lemma worker_split ws w y :
  ws !! w = Some y →
  ∃ l1 l2, ws = l1 ++ y :: l2 ∧ ∀ x, <[w := x]> ws = l1 ++ x :: l2.
Proof.
  intros Hw. exists (take w ws), (drop (S w) ws). split.
  - by rewrite take_drop_middle.
  - intros x. apply insert_take_drop. by eapply lookup_lt_Some.
Qed.

Lemma can_send_true {A} cap (c : chan A) :
  can_send cap c = true ↔ closed c = false ∧ (length (buf c) < cap)%nat.
Proof.
  unfold can_send. rewrite andb_true_iff, negb_true_iff, bool_decide_eq_true. done.
Qed.

(** Inversion of the step function, one action at a time. *)
Lemma step_SendProduct s s' :
  step SendProduct s = Some s' →
  ∃ product rest,
    unsent s = product :: rest
    ∧ closed (productChan s) = false
    ∧ (length (buf (productChan s)) < capacity s)%nat
    ∧ s' = set_productChan (push product (productChan s)) (set_unsent rest s).
Proof.
  unfold step. destruct (unsent s) as [|product rest]; [done|].
  destruct (can_send _ _) eqn:E; [|done]. apply can_send_true in E as [? ?].
  intros [= <-]. eauto 10.
Qed.

Lemma step_CloseProducts s s' :
  step CloseProducts s = Some s' →
  unsent s = [] ∧ closed (productChan s) = false
  ∧ s' = set_productChan (close (productChan s)) s.
Proof.
  unfold step. destruct (unsent s); [|done].
  destruct (closed (productChan s)); [done|]. by intros [= <-].
Qed.

Lemma step_Receive w s s' :
  step (Receive w) s = Some s' →
  ∃ product rest,
    workers s !! w = Some Receiving
    ∧ buf (productChan s) = product :: rest
    ∧ s' = set_worker w (Fetching product)
             (set_productChan {| buf := rest; closed := closed (productChan s) |} s).
Proof.
  unfold step. destruct (workers s !! w) as [[| | |]|]; try done.
  destruct (buf (productChan s)) as [|product rest]; [done|].
  intros [= <-]. eauto.
Qed.

Lemma step_Exit w s s' :
  step (Exit w) s = Some s' →
  workers s !! w = Some Receiving
  ∧ buf (productChan s) = [] ∧ closed (productChan s) = true
  ∧ s' = set_worker w Done s.
Proof.
  unfold step. destruct (workers s !! w) as [[| | |]|]; try done.
  destruct (buf (productChan s)); [|done].
  destruct (closed (productChan s)); [|done]. by intros [= <-].
Qed.

Lemma step_Fetch w price now s s' :
  step (Fetch w price now) s = Some s' →
  ∃ product,
    workers s !! w = Some (Fetching product)
    ∧ s' = emit (EvFetch w product price now)
             (set_worker w
                match Tracker.priceWorker_body product price now with
                | Some entry => Sending entry
                | None => Receiving
                end s).
Proof.
  unfold step. destruct (workers s !! w) as [[|product| |]|]; try done.
  intros [= <-]. eauto.
Qed.

Lemma step_Forward w s s' :
  step (Forward w) s = Some s' →
  ∃ entry,
    workers s !! w = Some (Sending entry)
    ∧ closed (resultChan s) = false
    ∧ (length (buf (resultChan s)) < capacity s)%nat
    ∧ s' = emit (EvForward w entry)
             (set_worker w Receiving
                (set_resultChan (push entry (resultChan s)) s)).
Proof.
  unfold step. destruct (workers s !! w) as [[| |entry|]|]; try done.
  destruct (can_send _ _) eqn:E; [|done]. apply can_send_true in E as [? ?].
  intros [= <-]. eauto 10.
Qed.

Lemma step_CloseResults s s' :
  step CloseResults s = Some s' →
  forallb is_done (workers s) = true ∧ closed (resultChan s) = false
  ∧ s' = set_resultChan (close (resultChan s)) s.
Proof.
  unfold step. destruct (forallb is_done (workers s)); [|done].
  destruct (closed (resultChan s)); [done|]. by intros [= <-].
Qed.

Lemma step_Collect io s s' :
  step (Collect io) s = Some s' →
  ∃ entry rest,
    returned s = false
    ∧ buf (resultChan s) = entry :: rest
    ∧ s' = let r := DB.InsertPriceEntry io (store s)
                      (ProductID entry) (Price entry) (Timestamp entry) in
           emit (EvInsert entry r.2)
             (set_store r.1
                (set_resultChan {| buf := rest; closed := closed (resultChan s) |} s)).
Proof.
  unfold step. destruct (returned s); [done|].
  destruct (buf (resultChan s)) as [|entry rest]; [done|].
  intros [= <-]. eauto.
Qed.

Lemma step_Return s s' :
  step Return s = Some s' →
  returned s = false ∧ buf (resultChan s) = [] ∧ closed (resultChan s) = true
  ∧ s' = set_returned true s.
Proof.
  unfold step. destruct (returned s); [done|].
  destruct (buf (resultChan s)); [|done].
  destruct (closed (resultChan s)); [|done]. by intros [= <-].
Qed.

Lemma fetched_app evs1 evs2 : fetched (evs1 ++ evs2) = fetched evs1 ++ fetched evs2.
Proof. unfold fetched, fetches. by rewrite bind_app, fmap_app. Qed.

Lemma fetches_app evs1 evs2 : fetches (evs1 ++ evs2) = fetches evs1 ++ fetches evs2.
Proof. unfold fetches. by rewrite bind_app. Qed.

Lemma produced_app evs1 evs2 : produced (evs1 ++ evs2) = produced evs1 ++ produced evs2.
Proof. unfold produced. by rewrite bind_app. Qed.

Lemma forwarded_app evs1 evs2 :
  forwarded (evs1 ++ evs2) = forwarded evs1 ++ forwarded evs2.
Proof. unfold forwarded. by rewrite bind_app. Qed.

Lemma inserts_app evs1 evs2 : inserts (evs1 ++ evs2) = inserts evs1 ++ inserts evs2.
Proof. unfold inserts. by rewrite bind_app. Qed.

Lemma holding_app ws1 ws2 : holding (ws1 ++ ws2) = holding ws1 ++ holding ws2.
Proof. unfold holding. by rewrite bind_app. Qed.

Lemma sending_app ws1 ws2 : sending (ws1 ++ ws2) = sending ws1 ++ sending ws2.
Proof. unfold sending. by rewrite bind_app. Qed.

Lemma holding_cons x ws : holding (x :: ws) = holding [x] ++ holding ws.
Proof. apply (holding_app [x]). Qed.

Lemma sending_cons x ws : sending (x :: ws) = sending [x] ++ sending ws.
Proof. apply (sending_app [x]). Qed.

Lemma forallb_is_done_app ws1 ws2 :
  forallb is_done (ws1 ++ ws2) = forallb is_done ws1 && forallb is_done ws2.
Proof. apply forallb_app. Qed.

Lemma all_done_idle ws :
  forallb is_done ws = true → holding ws = [] ∧ sending ws = [].
Proof.
  induction ws as [|[| | |] ws IH]; simpl; try done.
Qed.

Lemma init_inv snapshot d0 : Inv snapshot d0 (trackAllProducts snapshot d0).
Proof.
  destruct snapshot as [|p l]; constructor; simpl; try done.
  unfold numWorkers. lia.
Qed.

Lemma fetched_fetch w product price now :
  fetched [EvFetch w product price now] = [product].
Proof. done. Qed.

Lemma fetched_forward w entry : fetched [EvForward w entry] = [].
Proof. done. Qed.

Lemma fetched_insert entry err : fetched [EvInsert entry err] = [].
Proof. done. Qed.

Ltac log_simpl :=
  repeat first
    [ rewrite fetched_app | rewrite fetches_app | rewrite produced_app
    | rewrite forwarded_app | rewrite inserts_app ];
  rewrite ?fetched_fetch, ?fetched_forward, ?fetched_insert;
  simpl; rewrite ?app_nil_r.

Lemma step_inv snapshot d0 a s s' :
  Inv snapshot d0 s → step a s = Some s' → Inv snapshot d0 s'.
Proof.
  intros [Hcap Hflow Hprod Hout Hstore Hpc Hdone Hrc Hret Hws Hfw] Hstep.
  destruct a as [| |w|w|w price now|w| |io|].
  - apply step_SendProduct in Hstep as (p & rest & Hu & Hopen & Hroom & ->).
    rewrite Hu in *. constructor; simpl; try done.
    + rewrite Hflow. by rewrite <- (assoc_L (++) _ [p] rest).
    + by rewrite Hopen.
    + intros Hall. apply Hdone in Hall as [? _]. congruence.
  - apply step_CloseProducts in Hstep as (Hu & Hopen & ->).
    constructor; simpl; try done.
    intros Hall. apply Hdone in Hall as [? _]. congruence.
  - apply step_Receive in Hstep as (p & rest & Hw & Hbuf & ->).
    destruct (worker_split _ _ _ Hw) as (l1 & l2 & Hsplit & Hins).
    constructor; simpl; rewrite ?Hins; try done.
    + rewrite Hflow, Hsplit, Hbuf, !holding_app, (holding_cons Receiving),
        (holding_cons (Fetching p)). simpl. solve_Permutation.
    + rewrite Hprod, Hsplit, !sending_app, (sending_cons Receiving),
        (sending_cons (Fetching p)). done.
    + rewrite forallb_is_done_app. simpl. by rewrite andb_false_r.
    + intros Hc. apply Hrc in Hc. rewrite Hsplit, forallb_is_done_app in Hc.
      simpl in Hc. by rewrite andb_false_r in Hc.
    + rewrite Hsplit in Hws. rewrite length_app in Hws |- *. simpl in *. lia.
  - apply step_Exit in Hstep as (Hw & Hbuf & Hclosed & ->).
    destruct (worker_split _ _ _ Hw) as (l1 & l2 & Hsplit & Hins).
    constructor; simpl; rewrite ?Hins; try done.
    + rewrite Hflow, Hsplit, !holding_app, (holding_cons Receiving),
        (holding_cons Done). done.
    + rewrite Hprod, Hsplit, !sending_app, (sending_cons Receiving),
        (sending_cons Done). done.
    + intros Hc. apply Hrc in Hc. rewrite Hsplit, forallb_is_done_app in Hc.
      simpl in Hc. by rewrite andb_false_r in Hc.
    + rewrite Hsplit in Hws. rewrite length_app in Hws |- *. simpl in *. lia.
  - apply step_Fetch in Hstep as (p & Hw & ->).
    destruct (worker_split _ _ _ Hw) as (l1 & l2 & Hsplit & Hins).
    constructor; simpl; rewrite ?Hins; log_simpl; try done.
    + rewrite Hflow, Hsplit, !holding_app, (holding_cons (Fetching p)).
      rewrite (holding_cons (match _ with Some _ => _ | None => _ end)).
      destruct (Tracker.priceWorker_body p price now); simpl; solve_Permutation.
    + rewrite Hprod, Hsplit, !sending_app, (sending_cons (Fetching p)).
      rewrite (sending_cons (match _ with Some _ => _ | None => _ end)).
      destruct (Tracker.priceWorker_body p price now); simpl; solve_Permutation.
    + rewrite forallb_is_done_app. simpl.
      destruct (Tracker.priceWorker_body p price now); simpl; by rewrite andb_false_r.
    + intros Hc. apply Hrc in Hc. rewrite Hsplit, forallb_is_done_app in Hc.
      simpl in Hc. by rewrite andb_false_r in Hc.
    + rewrite Hsplit in Hws. rewrite length_app in Hws |- *. simpl in *. lia.
    + apply Forall_app. split; [done|]. apply Forall_singleton. simpl.
      apply lookup_lt_Some in Hw. lia.
  - apply step_Forward in Hstep as (e & Hw & Hopen & Hroom & ->).
    destruct (worker_split _ _ _ Hw) as (l1 & l2 & Hsplit & Hins).
    constructor; simpl; rewrite ?Hins; log_simpl; try done.
    + rewrite Hflow, Hsplit, !holding_app, (holding_cons (Sending e)),
        (holding_cons Receiving). done.
    + rewrite Hprod, Hsplit, !sending_app, (sending_cons (Sending e)),
        (sending_cons Receiving). simpl. solve_Permutation.
    + by rewrite Hout, (assoc_L (++)).
    + rewrite forallb_is_done_app. simpl. by rewrite andb_false_r.
    + by rewrite Hopen.
    + intros Hr. apply Hret in Hr as [? _]. congruence.
    + rewrite Hsplit in Hws. rewrite length_app in Hws |- *. simpl in *. lia.
  - apply step_CloseResults in Hstep as (Hall & Hopen & ->).
    constructor; simpl; try done.
    intros Hr. apply Hret in Hr as [? _]. congruence.
  - apply step_Collect in Hstep as (e & rest & Hrun & Hbuf & ->).
    constructor; simpl; log_simpl; try done.
    + rewrite Hout, Hbuf, fmap_app. simpl.
      by rewrite <- (assoc_L (++)).
    + rewrite foldl_app. simpl. rewrite <- Hstore.
      unfold DB.InsertPriceEntry, persist.
      destruct io as [err|]; [done|].
      destruct (is_nan (Price e)); [done|].
      destruct (foreign_keys (store s) && _); done.
    + intros Hr. congruence.
  - apply step_Return in Hstep as (Hrun & Hbuf & Hclosed & ->).
    constructor; simpl; try done.
Qed.

Lemma run_inv snapshot d0 sched s s' :
  Inv snapshot d0 s → run sched s = Some s' → Inv snapshot d0 s'.
Proof.
  revert s. induction sched as [|a sched IH]; intros s HInv; simpl.
  - by intros [= <-].
  - destruct (step a s) as [s1|] eqn:Hstep; [|done].
    apply IH. by eapply step_inv.
Qed.

Lemma run_app sched1 sched2 s :
  run (sched1 ++ sched2) s = run sched1 s ≫= run sched2.
Proof.
  revert s. induction sched1 as [|a sched1 IH]; intros s; simpl; [done|].
  destruct (step a s); [apply IH | done].
Qed.

Lemma measure_worker (l1 l2 : list Worker) x s :
  workers s = l1 ++ x :: l2 →
  sum_list_with worker_weight (workers s)
  = (sum_list_with worker_weight l1 + worker_weight x
     + sum_list_with worker_weight l2)%nat.
Proof. intros ->. rewrite sum_list_with_app. simpl. lia. Qed.

(** Every step uses up some of the measure. *)
Lemma step_measure a s s' : step a s = Some s' → (measure s' < measure s)%nat.
Proof.
  intros Hstep. unfold measure.
  destruct a as [| |w|w|w price now|w| |io|].
  - apply step_SendProduct in Hstep as (p & rest & Hu & Hopen & Hroom & ->).
    simpl. rewrite Hu, Hopen, length_app. simpl. lia.
  - apply step_CloseProducts in Hstep as (Hu & Hopen & ->).
    simpl. rewrite Hopen. lia.
  - apply step_Receive in Hstep as (p & rest & Hw & Hbuf & ->).
    destruct (worker_split _ _ _ Hw) as (l1 & l2 & Hsplit & Hins).
    simpl. rewrite Hins, Hbuf, (measure_worker l1 l2 Receiving s Hsplit).
    rewrite sum_list_with_app. simpl. lia.
  - apply step_Exit in Hstep as (Hw & Hbuf & Hclosed & ->).
    destruct (worker_split _ _ _ Hw) as (l1 & l2 & Hsplit & Hins).
    simpl. rewrite Hins, (measure_worker l1 l2 Receiving s Hsplit).
    rewrite sum_list_with_app. simpl. lia.
  - apply step_Fetch in Hstep as (p & Hw & ->).
    destruct (worker_split _ _ _ Hw) as (l1 & l2 & Hsplit & Hins).
    simpl. rewrite Hins, (measure_worker l1 l2 (Fetching p) s Hsplit).
    rewrite sum_list_with_app.
    destruct (Tracker.priceWorker_body p price now); simpl; lia.
  - apply step_Forward in Hstep as (e & Hw & Hopen & Hroom & ->).
    destruct (worker_split _ _ _ Hw) as (l1 & l2 & Hsplit & Hins).
    simpl. rewrite Hins, Hopen, (measure_worker l1 l2 (Sending e) s Hsplit).
    rewrite sum_list_with_app, length_app. simpl. lia.
  - apply step_CloseResults in Hstep as (Hall & Hopen & ->).
    simpl. rewrite Hopen. lia.
  - apply step_Collect in Hstep as (e & rest & Hrun & Hbuf & ->).
    simpl. rewrite Hbuf, Hrun. simpl. lia.
  - apply step_Return in Hstep as (Hrun & Hbuf & Hclosed & ->).
    simpl. rewrite Hrun. lia.
Qed.

(** No schedule is longer than the measure of the state it starts in. *)
Lemma run_bounded sched s s' :
  run sched s = Some s' → (length sched + measure s' ≤ measure s)%nat.
Proof.
  revert s. induction sched as [|a sched IH]; intros s; simpl.
  - intros [= <-]. lia.
  - destruct (step a s) as [s1|] eqn:Hstep; [|done].
    intros Hrun%IH. apply step_measure in Hstep. lia.
Qed.

Lemma produced_length evs : (length (produced evs) ≤ length (fetched evs))%nat.
Proof.
  induction evs as [|ev evs IH]; [done|].
  change (ev :: evs) with ([ev] ++ evs).
  rewrite produced_app, fetched_app, !length_app.
  destruct ev as [w p price now| |]; simpl; [|lia..].
  destruct (Tracker.priceWorker_body p price now); simpl; lia.
Qed.

Lemma not_all_done ws :
  forallb is_done ws = false → ∃ w x, ws !! w = Some x ∧ is_done x = false.
Proof.
  induction ws as [|x ws IH]; [done|]. simpl.
  destruct (is_done x) eqn:Hx; simpl.
  - intros (w & y & Hw & Hy)%IH. by exists (S w), y.
  - intros _. by exists 0%nat, x.
Qed.

Lemma all_done_lookup ws w x :
  forallb is_done ws = true → ws !! w = Some x → is_done x = true.
Proof.
  revert w. induction ws as [|y ws IH]; intros w; [done|]. simpl.
  intros [Hy Hall]%andb_true_iff. destruct w as [|w]; simpl.
  - by intros [= <-].
  - by apply IH.
Qed.

(** A send on [resultChan] finds room: the buffer holds fewer entries
    than products were fetched while a worker still has one to send. *)
Lemma result_room snapshot d0 s w entry :
  Inv snapshot d0 s → workers s !! w = Some (Sending entry) →
  (length (buf (resultChan s)) < capacity s)%nat.
Proof.
  intros [Hcap Hflow Hprod Hout _ _ _ _ _ _ _] Hw.
  destruct (worker_split _ _ _ Hw) as (l1 & l2 & Hsplit & _).
  pose proof (produced_length (events s)) as Hlen.
  apply Permutation_length in Hprod, Hflow.
  rewrite Hsplit, sending_app, (sending_cons (Sending entry)) in Hprod.
  rewrite Hout in Hprod. rewrite !length_app in Hprod, Hflow.
  simpl in Hprod. lia.
Qed.

(** A round that has not returned can take a step. *)
Lemma progress snapshot d0 s :
  Inv snapshot d0 s → returned s = false → ∃ a s', step a s = Some s'.
Proof.
  intros HInv Hrun.
  destruct (buf (resultChan s)) as [|e rest] eqn:Hrc.
  2:{ exists (Collect None). unfold step. rewrite Hrun, Hrc. eauto. }
  destruct (closed (resultChan s)) eqn:Hclosed.
  { exists Return. unfold step. rewrite Hrun, Hrc, Hclosed. eauto. }
  destruct (forallb is_done (workers s)) eqn:Hall.
  { exists CloseResults. unfold step. rewrite Hall, Hclosed. eauto. }
  apply not_all_done in Hall as (w & x & Hw & Hx).
  destruct x as [|p|e|]; [| | |done].
  - destruct (buf (productChan s)) as [|p rest] eqn:Hpc.
    2:{ exists (Receive w). unfold step. rewrite Hw, Hpc. eauto. }
    destruct (closed (productChan s)) eqn:Hpclosed.
    { exists (Exit w). unfold step. rewrite Hw, Hpc, Hpclosed. eauto. }
    destruct (unsent s) as [|p rest] eqn:Hu.
    { exists CloseProducts. unfold step. rewrite Hu, Hpclosed. eauto. }
    exists SendProduct. unfold step, can_send. rewrite Hu, Hpclosed, Hpc. simpl.
    destruct HInv as [Hcap Hflow _ _ _ _ _ _ _ _ _].
    apply Permutation_length in Hflow. rewrite Hu, !length_app in Hflow.
    simpl in Hflow. rewrite bool_decide_eq_true_2 by lia. eauto.
  - exists (Fetch w 1%float 0). unfold step. rewrite Hw. eauto.
  - exists (Forward w). unfold step, can_send. rewrite Hw, Hclosed. simpl.
    rewrite bool_decide_eq_true_2 by by eapply result_room. eauto.
Qed.

(** Once [trackAllProducts] has returned no goroutine of the round can
    act. *)
Lemma returned_quiescent snapshot d0 s a :
  Inv snapshot d0 s → returned s = true → step a s = None.
Proof.
  intros [_ _ _ _ _ Hpc Hdone Hrc Hret _ _] Hr.
  destruct (Hret Hr) as [Hclosed Hbuf].
  pose proof (Hrc Hclosed) as Hall.
  destruct (Hdone Hall) as [Hpclosed Hpbuf].
  pose proof (Hpc Hpclosed) as Hu.
  assert (∀ w x, workers s !! w = Some x → is_done x = true) as Hw.
  { intros w x Hx. by eapply all_done_lookup. }
  destruct a as [| |w|w|w price now|w| |io|]; unfold step;
    rewrite ?Hu, ?Hpclosed, ?Hr, ?Hall, ?Hclosed; simpl; try done.
  all: destruct (workers s !! w) as [[| | |]|] eqn:E; try done.
  all: by apply Hw in E.
Qed.

(** Every round can be run to its return, from any state it is in. *)
Lemma completes snapshot d0 s :
  Inv snapshot d0 s → ∃ sched s', run sched s = Some s' ∧ returned s' = true.
Proof.
  remember (measure s) as n eqn:Hn. revert s Hn.
  induction (lt_wf n) as [n _ IH]. intros s -> HInv.
  destruct (returned s) eqn:Hr.
  - exists [], s. done.
  - destruct (progress _ _ _ HInv Hr) as (a & s1 & Hstep).
    destruct (IH (measure s1) (step_measure _ _ _ Hstep) s1 eq_refl)
      as (sched & s' & Hrun & Hret).
    { by eapply step_inv. }
    exists (a :: sched), s'. simpl. by rewrite Hstep.
Qed.
End round_steps.

(** ** The worker's guard and the rows of a round *)

Section worker_guard.
Import Round.


Lemma produced_positive evs e :
  e ∈ produced evs →
  (0 <? Price e)%float = true ∧ ∃ p, p ∈ fetched evs ∧ ProductID e = ID p.
Proof.
  induction evs as [|ev evs IH]; [by intros ?%not_elem_of_nil|].
  change (ev :: evs) with ([ev] ++ evs).
  rewrite produced_app, fetched_app, elem_of_app.
  intros [He|He].
  - destruct ev as [w p price now| |]; simpl in He;
      try by apply not_elem_of_nil in He.
    unfold produced in He. simpl in He. rewrite app_nil_r in He.
    unfold Tracker.priceWorker_body in He.
    destruct (0 <? price)%float eqn:Hpos; simpl in He;
      [|by apply not_elem_of_nil in He].
    apply list_elem_of_singleton in He as ->. simpl. split; [done|].
    exists p. split; [left | done].
  - destruct (IH He) as (Hpos & p & Hp & Hid). split; [done|].
    exists p. split; [|done]. apply elem_of_app. by right.
Qed.

(** The rows of the store after some inserts of the log. *)
Lemma persisted_rows (attempts : list (PriceEntry * option error)) d e :
  e ∈ price_entries (foldl persist d attempts) →
  e ∈ price_entries d
  ∨ ∃ a, a ∈ attempts ∧ a.2 = None ∧ ProductID e = ProductID a.1
         ∧ Price e = Price a.1 ∧ Timestamp e = Timestamp a.1.
Proof.
  revert d. induction attempts as [|a l IH]; intros d; simpl; [by left|].
  intros [He | (a' & Ha' & Hrest)]%IH.
  - unfold persist in He. destruct (a.2) eqn:Herr; [by left|]. simpl in He.
    apply elem_of_app in He as [He | ->%list_elem_of_singleton]; [by left|].
    right. exists a. split; [left | done].
  - right. exists a'. split; [by right | done].
Qed.

Lemma persisted_products (attempts : list (PriceEntry * option error)) d :
  products_tbl (foldl persist d attempts) = products_tbl d
  ∧ foreign_keys (foldl persist d attempts) = foreign_keys d.
Proof.
  revert d. induction attempts as [|a l IH]; intros d; simpl; [done|].
  destruct (IH (persist d a)) as [-> ->]. unfold persist.
  by destruct (a.2).
Qed.

(** Every insert of a round is of an entry some worker produced. *)
Lemma inserts_produced snapshot d0 s a :
  Inv snapshot d0 s → a ∈ inserts (events s) → a.1 ∈ produced (events s).
Proof.
  intros HInv Ha. rewrite (inv_produced _ _ _ HInv), (inv_out _ _ _ HInv).
  rewrite !elem_of_app. left. left. apply list_elem_of_fmap. eauto.
Qed.
End worker_guard.

(** ** What a round fetches, forwards and stores *)

Section claims_round.
Import Round.


Lemma filter_id_NoDup (l : list Product) p :
  NoDup (ID <$> l) → p ∈ l → filter (λ q, ID q = ID p) l = [p].
Proof.
  induction l as [|q l IH]; [by intros _ ?%not_elem_of_nil|].
  rewrite fmap_cons, NoDup_cons. intros [Hq Hnd] Hin.
  assert (∀ r, r ∈ l → ID r ≠ ID q) as Hfresh.
  { intros r Hr Heq. apply Hq. rewrite <- Heq. apply list_elem_of_fmap. eauto. }
  apply elem_of_cons in Hin as [-> | Hin].
  - rewrite filter_cons_True by done. f_equal.
    clear IH Hq Hnd. induction l as [|r l IH]; [done|].
    rewrite filter_cons_False.
    + apply IH. intros r' Hr'. apply Hfresh. by right.
    + apply Hfresh. left.
  - rewrite filter_cons_False; [by apply IH|].
    intros Heq. by apply (Hfresh p Hin).
Qed.

Lemma snapshot_NoDup pt snapshot :
  registry_keyed pt → Tracker.is_snapshot pt snapshot → NoDup (ID <$> snapshot).
Proof.
  intros Hkeyed Hsnap. unfold Tracker.is_snapshot in Hsnap. rewrite Hsnap.
  replace (ID <$> (map_to_list (products pt)).*2)
    with ((map_to_list (products pt)).*1); [apply NoDup_fst_map_to_list|].
  assert (∀ kp, kp ∈ map_to_list (products pt) → kp.1 = ID kp.2) as Hall.
  { intros [k p] Hkp%elem_of_map_to_list. simpl. symmetry. by apply Hkeyed. }
  revert Hall. generalize (map_to_list (products pt)). intros l.
  induction l as [|kp l IH]; intros Hall; [done|].
  simpl. rewrite Hall by left. f_equal. apply IH.
  intros kp' Hkp'. apply Hall. by right.
Qed.

Lemma returned_all_fetched snapshot d0 s :
  Inv snapshot d0 s → returned s = true →
  fetched (events s) ≡ₚ snapshot
  ∧ forwarded (events s) ≡ₚ produced (events s)
  ∧ (inserts (events s)).*1 = forwarded (events s).
Proof.
  intros [_ Hflow Hprod Hout _ Hpc Hdone Hrc Hret _ _] Hr.
  destruct (Hret Hr) as [Hclosed Hbuf].
  pose proof (Hrc Hclosed) as Hall.
  destruct (Hdone Hall) as [Hpclosed Hpbuf].
  destruct (all_done_idle _ Hall) as [Hhold Hsend].
  rewrite Hhold, Hpbuf, (Hpc Hpclosed), !app_nil_r in Hflow.
  rewrite Hsend, app_nil_r in Hprod. rewrite Hbuf, app_nil_r in Hout.
  done.
Qed.

(** C7.  A round that has returned fetched the products of its
    snapshot, each as often as the snapshot lists it and no other: the
    log of fetches is a rearrangement of the snapshot, so there are
    exactly N fetches for N entities, each by one of the five workers.
    When the ids of the snapshot differ, as they do in a snapshot of
    the registry, each product has exactly one fetch, by one worker.
    Before the return no product is fetched more often than the
    snapshot lists it, after the return no goroutine acts, and every
    schedule can be continued to the return. *)
Theorem round_fetches_each_entity_once
    (snapshot : list Product) (d0 : Database) (sched : list Action) (s : State) :
  run sched (trackAllProducts snapshot d0) = Some s →
  returned s = true →
  fetched (events s) ≡ₚ snapshot
  ∧ length (fetches (events s)) = length snapshot
  ∧ (∀ wp, wp ∈ fetches (events s) → (wp.1 < numWorkers)%nat)
  ∧ (NoDup (ID <$> snapshot) →
     ∀ p, p ∈ snapshot →
       ∃ w, filter (λ wp, ID wp.2 = ID p) (fetches (events s)) = [(w, p)])
  ∧ (∀ pt, registry_keyed pt → Tracker.is_snapshot pt snapshot →
           NoDup (ID <$> snapshot))
  ∧ (∀ a, step a s = None)
  ∧ (∀ sched0 s0,
       run sched0 (trackAllProducts snapshot d0) = Some s0 →
       fetched (events s0) ⊆+ snapshot
       ∧ (length sched0 ≤ measure (trackAllProducts snapshot d0))%nat
       ∧ ∃ rest s1,
           run (sched0 ++ rest) (trackAllProducts snapshot d0) = Some s1
           ∧ returned s1 = true).
Proof.
  intros Hrun Hr.
  pose proof (run_inv _ _ _ _ _ (init_inv snapshot d0) Hrun) as HInv.
  destruct (returned_all_fetched _ _ _ HInv Hr) as (Hfetched & _ & _).
  split_and!.
  - done.
  - apply Permutation_length in Hfetched. unfold fetched in Hfetched.
    by rewrite length_fmap in Hfetched.
  - intros wp Hwp. pose proof (inv_fetch_workers _ _ _ HInv) as Hfw.
    rewrite Forall_forall in Hfw. by apply Hfw.
  - intros Hnd p Hp.
    assert (∀ l : list (nat * Product),
              filter (λ q, ID q = ID p) l.*2
              = (filter (λ wp : nat * Product, ID wp.2 = ID p) l).*2) as Hcomm.
    { induction l as [|x l IH]; [done|]. rewrite fmap_cons.
      destruct (decide (ID x.2 = ID p)) as [Hx|Hx].
      - rewrite !filter_cons_True by done. rewrite fmap_cons. by f_equal.
      - by rewrite !filter_cons_False by done. }
    assert ((filter (λ wp : nat * Product, ID wp.2 = ID p)
               (fetches (events s))).*2 ≡ₚ [p]) as Hp1.
    { rewrite <- Hcomm, <- (filter_id_NoDup snapshot p Hnd Hp).
      apply filter_Permutation. exact Hfetched. }
    apply Permutation_singleton_r in Hp1.
    destruct (filter _ (fetches (events s))) as [|[w q] [|? ?]]; try done.
    injection Hp1 as ->. by exists w.
  - intros pt. apply snapshot_NoDup.
  - intros a. by eapply returned_quiescent.
  - intros sched0 s0 Hrun0.
    pose proof (run_inv _ _ _ _ _ (init_inv snapshot d0) Hrun0) as HInv0.
    split_and!.
    + rewrite (inv_flow _ _ _ HInv0). by apply submseteq_inserts_r.
    + apply run_bounded in Hrun0. lia.
    + destruct (completes _ _ _ HInv0) as (rest & s1 & Hrest & Hr1).
      exists rest, s1. rewrite run_app, Hrun0. done.
Qed.

Lemma round_fetches_each_entity_once_witness :
  ∃ s, run two_product_schedule (trackAllProducts [sample_a; sample_b] sample_db) = Some s
       ∧ returned s = true
       ∧ fetches (events s) = [(3%nat, sample_a); (0%nat, sample_b)]
       ∧ fetched (events s) ≡ₚ [sample_a; sample_b].
Proof.
  eexists. split; [vm_compute; reflexivity|].
  split; [reflexivity|]. split; [reflexivity|].
  eapply (round_fetches_each_entity_once [sample_a; sample_b] sample_db
            two_product_schedule).
  - vm_compute. reflexivity.
  - reflexivity.
Defined.



(** C8.  An insert that fails during the collection of a round changes
    nothing but the log: the store is as before, the entry is gone from
    the channel and is not queued again, no goroutine is stopped, and
    the round can still be run to its return.  Whether a collect step
    can be taken does not depend on the outcome of the insert.  At
    every moment each entry taken from [resultChan] has had exactly one
    insert, in the order of arrival, and the store is the initial one
    with the rows of the successful inserts added; at the return every
    entry forwarded has had its insert. *)
Theorem persistence_failure_keeps_round
    (snapshot : list Product) (d0 : Database) (sched : list Action) (s : State) :
  run sched (trackAllProducts snapshot d0) = Some s →
  (∀ err s',
     step (Collect (Some err)) s = Some s' →
     (∃ entry rest,
        buf (resultChan s) = entry :: rest
        ∧ events s' = events s ++ [EvInsert entry (Some err)]
        ∧ buf (resultChan s') = rest)
     ∧ store s' = store s
     ∧ closed (resultChan s') = closed (resultChan s)
     ∧ returned s' = false
     ∧ workers s' = workers s
     ∧ productChan s' = productChan s
     ∧ unsent s' = unsent s
     ∧ ∃ more s'', run more s' = Some s'' ∧ returned s'' = true)
  ∧ (∀ io, is_Some (step (Collect io) s)
           ↔ returned s = false ∧ buf (resultChan s) ≠ [])
  ∧ forwarded (events s) = (inserts (events s)).*1 ++ buf (resultChan s)
  ∧ store s = foldl persist d0 (inserts (events s))
  ∧ (returned s = true →
     (inserts (events s)).*1 = forwarded (events s)
     ∧ forwarded (events s) ≡ₚ produced (events s)).
Proof.
  intros Hrun.
  pose proof (run_inv _ _ _ _ _ (init_inv snapshot d0) Hrun) as HInv.
  split_and!.
  - intros err s' Hstep.
    assert (Inv snapshot d0 s') as HInv' by by eapply step_inv.
    apply step_Collect in Hstep as (e & rest & Hr & Hbuf & ->).
    simpl. split_and!; try done.
    + by exists e, rest.
    + by apply (completes snapshot d0).
  - intros io. unfold step.
    destruct (returned s); [split; [by intros [? ?] | by intros [? ?]]|].
    destruct (buf (resultChan s)); split; intros H;
      first [ done | by destruct H | by eexists ].
  - apply (inv_out _ _ _ HInv).
  - apply (inv_store _ _ _ HInv).
  - intros Hr. by destruct (returned_all_fetched _ _ _ HInv Hr) as (_ & ? & ?).
Qed.

Lemma persistence_failure_keeps_round_witness :
  ∃ s, run failing_insert_schedule (trackAllProducts [sample_a; sample_b] sample_db)
         = Some s
       ∧ inserts (events s)
           = [ ({| EntryID := 0; ProductID := "a"; Price := 10; Timestamp := 5 |},
                Some "database is locked"%string);
               ({| EntryID := 0; ProductID := "b"; Price := 20; Timestamp := 6 |},
                None) ]
       ∧ price_entries (store s)
           = [ {| EntryID := 1; ProductID := "b"; Price := 20; Timestamp := 6 |} ]
       ∧ store s = foldl persist sample_db (inserts (events s)).
Proof.
  eexists. split; [vm_compute; reflexivity|].
  split; [reflexivity|]. split; [reflexivity|].
  eapply (persistence_failure_keeps_round [sample_a; sample_b] sample_db
            failing_insert_schedule).
  vm_compute. reflexivity.
Defined.

(** C9.  On an empty snapshot [trackAllProducts] has returned at once:
    the log is empty, the store is the one it was given, no action of
    any goroutine is enabled, and so the only schedule is the empty
    one.  The snapshot of a registry is empty exactly when the registry
    is. *)
Theorem empty_snapshot_round_does_nothing (d : Database) :
  returned (trackAllProducts [] d) = true
  ∧ store (trackAllProducts [] d) = d
  ∧ events (trackAllProducts [] d) = []
  ∧ (∀ a, step a (trackAllProducts [] d) = None)
  ∧ (∀ sched s, run sched (trackAllProducts [] d) = Some s →
                sched = [] ∧ s = trackAllProducts [] d)
  ∧ (∀ pt, Tracker.is_snapshot pt [] ↔ products pt = ∅).
Proof.
  assert (∀ a, step a (trackAllProducts [] d) = None) as Hnone
    by (by intros [| |w|w|w price now|w| |io|]).
  split_and!; try done.
  - intros [|a sched] s; simpl.
    + by intros [= <-].
    + by rewrite Hnone.
  - intros pt. unfold Tracker.is_snapshot. split.
    + intros Hnil%Permutation_nil_l. symmetry in Hnil.
      apply fmap_nil_inv in Hnil. by apply map_to_list_empty_iff.
    + intros ->. by rewrite map_to_list_empty.
Qed.
End claims_round.

(** ** The store's constraint and the products handler *)

Section claims_store.

(** No statement of the program turns the pragma on. *)
Lemma store_reachable_foreign_keys_off d :
  store_reachable d → foreign_keys d = false.
Proof.
  induction 1 as [|io d product _ IH|io d productID price timestamp _ IH].
  - done.
  - by destruct io.
  - unfold DB.InsertPriceEntry. destruct io as [err|]; [done|].
    destruct (is_nan price); [done|]. rewrite IH. done.
Qed.

(** With the pragma on, an insert keeps every entry tied to a product. *)
Lemma InsertPriceEntry_foreign_keys_on io d productID price timestamp :
  foreign_keys d = true → referential_integrity d →
  referential_integrity (DB.InsertPriceEntry io d productID price timestamp).1.
Proof.
  intros Hfk Hri. unfold DB.InsertPriceEntry.
  destruct io as [err|]; [done|].
  destruct (is_nan price); [done|]. rewrite Hfk. simpl.
  case_bool_decide as Hnone; [done|].
  intros e. simpl. rewrite elem_of_app, list_elem_of_singleton.
  intros [He | ->]; [by apply Hri|]. simpl.
  destruct (decide (productID ∈ ID <$> products_tbl d)) as [|Hout]; [done|].
  by apply rows_with_id_nil in Hout.
Qed.

(** C2.  The store does not enforce the FOREIGN KEY clause of
    [price_entries]: on the connection the program opens, an insert of
    a price for an id that [products] does not hold succeeds and leaves
    a row that refers to no product.  This holds in every state the
    store can reach, whenever the driver reports no error and the price
    is a number. *)
Theorem InsertPriceEntry_accepts_unknown_product :
  (DB.InsertPriceEntry None sample_db "ghost" 9.5 7).2 = None
  ∧ price_entries (DB.InsertPriceEntry None sample_db "ghost" 9.5 7).1
      = [ {| EntryID := 1; ProductID := "ghost"; Price := 9.5; Timestamp := 7 |} ]
  ∧ ID <$> products_tbl (DB.InsertPriceEntry None sample_db "ghost" 9.5 7).1
      = ["a"; "b"]%string
  ∧ store_reachable (DB.InsertPriceEntry None sample_db "ghost" 9.5 7).1
  ∧ ¬ referential_integrity (DB.InsertPriceEntry None sample_db "ghost" 9.5 7).1
  ∧ (∀ d productID price timestamp,
       store_reachable d → is_nan price = false →
       (DB.InsertPriceEntry None d productID price timestamp).2 = None
       ∧ ∃ e, e ∈ price_entries (DB.InsertPriceEntry None d productID price timestamp).1
              ∧ ProductID e = productID).
Proof.
  split_and!; try (vm_compute; reflexivity).
  - apply reach_entry. unfold sample_db. do 2 apply reach_product. apply reach_new.
  - intros Hri.
    assert ("ghost"%string ∈ ["a"; "b"]%string) as Hin.
    { apply (Hri {| EntryID := 1; ProductID := "ghost"; Price := 9.5;
                    Timestamp := 7 |}). vm_compute. left. }
    apply elem_of_cons in Hin as [? | Hin]; [done|].
    apply elem_of_cons in Hin as [? | Hin]; [done|].
    by apply not_elem_of_nil in Hin.
  - intros d productID price timestamp Hd Hnum.
    unfold DB.InsertPriceEntry. rewrite Hnum, (store_reachable_foreign_keys_off d Hd).
    simpl. split; [done|]. eexists. split; [apply elem_of_app; right; left | done].
Qed.

(** What the tracker adds to the store in a round refers to products of
    the snapshot: the tracker itself never makes a row for an unknown
    product. *)
Lemma round_keeps_referential_integrity snapshot d0 sched s :
  Round.run sched (Round.trackAllProducts snapshot d0) = Some s →
  referential_integrity d0 →
  (∀ p, p ∈ snapshot → ID p ∈ ID <$> products_tbl d0) →
  referential_integrity (Round.store s).
Proof.
  intros Hrun Hri Hsnap e He.
  pose proof (run_inv _ _ _ _ _ (init_inv snapshot d0) Hrun) as HInv.
  rewrite (Round.inv_store _ _ _ HInv) in He |- *.
  destruct (persisted_products (Round.inserts (Round.events s)) d0) as [-> _].
  apply persisted_rows in He as [He | (a & Ha & _ & Hid & _)]; [by apply Hri|].
  rewrite Hid.
  destruct (produced_positive _ _ (inserts_produced _ _ _ _ HInv Ha))
    as (_ & p & Hp & ->).
  apply Hsnap. rewrite (Round.inv_flow _ _ _ HInv). apply elem_of_app. by left.
Qed.


End claims_store.

(** ** What the tracker keeps *)

Section tracker_invariant.
Implicit Types (pt : PriceTracker) (p : Product) (d : Database).

Lemma foldl_insert_lookup (l : list Product) (m : gmap string Product) k p :
  foldl (λ m product, <[ID product := product]> m) m l !! k = Some p →
  (p ∈ l ∧ ID p = k) ∨ m !! k = Some p.
Proof.
  revert m. induction l as [|x l IH]; intros m; simpl; [by right|].
  intros [[Hp Hk] | Hm]%IH.
  - left. split; [by right | done].
  - destruct (decide (ID x = k)) as [<-|Hne].
    + rewrite lookup_insert_eq in Hm. injection Hm as <-. left. split; [left | done].
    + rewrite lookup_insert_ne in Hm by done. by right.
Qed.

Lemma NewPriceTracker_ok io d :
  referential_integrity d → tracker_ok (Tracker.NewPriceTracker io d).
Proof.
  intros Hri. unfold Tracker.NewPriceTracker, Tracker.loadProducts, DB.GetAllProducts.
  destruct io as [err|]; simpl.
  - split_and!; [by intros k p ? | by intros k p ? | done].
  - split_and!; [| | done]; intros k p Hkp; simpl in Hkp;
      apply foldl_insert_lookup in Hkp as [[Hp Hk] | Hempty]; try done.
    rewrite merge_sort_Permutation in Hp. simpl.
    apply list_elem_of_fmap. eauto.
Qed.

Lemma InsertProduct_ids io d p k :
  k ∈ ID <$> products_tbl d → k ∈ ID <$> products_tbl (DB.InsertProduct io d p).1.
Proof.
  destruct io as [err|]; [done|]. simpl.
  intros (q & -> & Hq)%list_elem_of_fmap.
  destruct (decide (ID q = ID p)) as [Heq|Hne].
  - rewrite Heq. apply list_elem_of_fmap. exists p. split; [done|].
    apply elem_of_app. right. left.
  - apply list_elem_of_fmap. exists q. split; [done|].
    apply elem_of_app. left. by apply list_elem_of_filter.
Qed.

Lemma AddProduct_ok io pt p :
  tracker_ok pt → tracker_ok (Tracker.AddProduct io pt p).1.
Proof.
  intros (Hkeyed & Hsub & Hri). unfold Tracker.AddProduct.
  destruct io as [err|]; [done|]. simpl. split_and!.
  - intros k q. simpl. destruct (decide (ID p = k)) as [<-|Hne].
    + rewrite lookup_insert_eq. by intros [= <-].
    + rewrite lookup_insert_ne by done. apply Hkeyed.
  - intros k q. simpl. destruct (decide (ID p = k)) as [<-|Hne].
    + intros _. apply list_elem_of_fmap. exists p. split; [done|].
      apply elem_of_app. right. left.
    + rewrite lookup_insert_ne by done. intros Hq%Hsub.
      by apply (InsertProduct_ids None (db pt) p k).
  - intros e He. apply (InsertProduct_ids None (db pt) p). by apply Hri.
Qed.

(** A round of the tracker keeps it: the rows it adds are for products
    of the snapshot, which the store holds. *)
Lemma round_ok pt snapshot sched s :
  tracker_ok pt → Tracker.is_snapshot pt snapshot →
  Round.run sched (Round.trackAllProducts snapshot (db pt)) = Some s →
  tracker_ok {| db := Round.store s; products := products pt |}.
Proof.
  intros (Hkeyed & Hsub & Hri) Hsnap Hrun.
  pose proof (run_inv _ _ _ _ _ (init_inv snapshot (db pt)) Hrun) as HInv.
  assert (products_tbl (Round.store s) = products_tbl (db pt)) as Htbl.
  { rewrite (Round.inv_store _ _ _ HInv).
    by destruct (persisted_products (Round.inserts (Round.events s)) (db pt)). }
  split_and!; simpl.
  - done.
  - intros k p Hkp. rewrite Htbl. by eapply Hsub.
  - eapply round_keeps_referential_integrity; [done | done |].
    intros p Hp. unfold Tracker.is_snapshot in Hsnap. rewrite Hsnap in Hp.
    apply list_elem_of_fmap in Hp as ([k q] & -> & Hkq%elem_of_map_to_list).
    simpl. rewrite (Hkeyed _ _ Hkq). by eapply Hsub.
Qed.
End tracker_invariant.

(** ** The scenarios of the specification *)

Example scenario_round :
  (λ s, API.handleGetProducts None {| db := Round.store s; products := products scenario_tracker |})
    <$> Round.run scenario_schedule
          (Round.trackAllProducts [sample_a; sample_b; sample_c] (db scenario_tracker))
  = Some {| API.status := 200;
            API.body := API.JSONProducts
              [ {| Product_of := sample_a; LatestPrice := Some 10%float; LastUpdated := Some 13 |};
                {| Product_of := sample_b; LatestPrice := None; LastUpdated := None |};
                {| Product_of := sample_c; LatestPrice := Some 20%float; LastUpdated := Some 12 |} ] |}.
Proof. vm_compute. reflexivity. Qed.

Example scenario_unknown_id :
  API.handleGetPriceHistory None None scenario_tracker "unknown-id" (Some 50)
  = {| API.status := 404; API.body := API.JSONError "product not found: unknown-id" |}.
Proof. vm_compute. reflexivity. Qed.

Example fetchPrice_centre :
  Tracker.fetchPrice 0.5 {| ID := "laptop-1"; Name := "Gaming Laptop"; URL := "" |} = 1200%float
  ∧ Tracker.fetchPrice 0.5 sample_a = 100%float
  ∧ Tracker.fetchPrice 0 {| ID := "phone-1"; Name := "Smartphone X"; URL := "" |} = 720%float.
Proof. split_and!; vm_compute; reflexivity. Qed.

(** * Further properties of the store, the registry, the handlers and the loop *)

Section store_invariants.
Implicit Types (d : Database) (e : PriceEntry) (p : Product).

Lemma InsertProduct_ids_NoDup io d p :
  NoDup (ID <$> products_tbl d) →
  NoDup (ID <$> products_tbl (DB.InsertProduct io d p).1).
Proof.
  destruct io as [err|]; [done|]. simpl. intros Hnd.
  rewrite fmap_app. apply NoDup_app. split_and!.
  - apply (sublist_NoDup _ (ID <$> products_tbl d)); [done|].
    apply fmap_sublist, sublist_filter.
  - intros k (q & -> & [Hne _]%list_elem_of_filter)%list_elem_of_fmap.
    simpl. by intros Heq%list_elem_of_singleton.
  - simpl. apply NoDup_singleton.
Qed.

Lemma InsertPriceEntry_products io d productID price timestamp :
  products_tbl (DB.InsertPriceEntry io d productID price timestamp).1 = products_tbl d.
Proof.
  unfold DB.InsertPriceEntry. destruct io as [err|]; [done|].
  destruct (is_nan price); [done|]. by destruct (foreign_keys d && _).
Qed.

(** X2.  Product ids are unique in every state the store can reach:
    [INSERT OR REPLACE] on the primary key never leaves two rows of one
    id.  So [GetAllProducts] never lists an id twice, and the count that
    [ProductExists] reads is 0 or 1. *)
Theorem store_product_ids_unique (d : Database) :
  store_reachable d →
  NoDup (ID <$> products_tbl d)
  ∧ (∀ io, NoDup (ID <$> (DB.GetAllProducts io d).1))
  ∧ (∀ productID, (length (rows_with_id productID (products_tbl d)) ≤ 1)%nat).
Proof.
  intros Hd.
  assert (NoDup (ID <$> products_tbl d)) as Hnd.
  { induction Hd as [|io d product _ IH|io d productID price timestamp _ IH].
    - constructor.
    - by apply InsertProduct_ids_NoDup.
    - by rewrite InsertPriceEntry_products. }
  split_and!; [done | |].
  - intros [err|]; simpl; [constructor|]. by rewrite merge_sort_Permutation.
  - intros productID. unfold rows_with_id.
    induction (products_tbl d) as [|q l IH]; [simpl; lia|].
    rewrite fmap_cons, NoDup_cons in Hnd. destruct Hnd as [Hq Hnd].
    destruct (decide (ID q = productID)) as [<-|Hne].
    + rewrite filter_cons_True by done.
      replace (filter (λ p, ID p = ID q) l) with (@nil Product); [simpl; lia|].
      symmetry. destruct (filter (λ p, ID p = ID q) l) as [|r l'] eqn:E; [done|].
      assert (r ∈ filter (λ p, ID p = ID q) l) as [Hr Hin]%list_elem_of_filter
        by (rewrite E; left).
      destruct Hq. rewrite <- Hr. apply list_elem_of_fmap. eauto.
    + rewrite filter_cons_False by done. by apply IH.
Qed.

Lemma store_product_ids_unique_witness :
  store_reachable sample_db ∧ NoDup (ID <$> products_tbl sample_db).
Proof.
  assert (store_reachable sample_db) as Hd
    by (unfold sample_db; do 2 apply reach_product; apply reach_new).
  split; [exact Hd|]. apply (store_product_ids_unique sample_db Hd).
Defined.

(** X3.  In every state the store can reach the ids of [price_entries]
    increase along the table, so no two rows share an id; they lie
    between 1 and the AUTOINCREMENT counter, which equals the number of
    rows (no row is ever deleted, and a failed insert uses up no id). *)
Theorem store_entry_ids_increasing (d : Database) :
  store_reachable d →
  StronglySorted Z.lt (EntryID <$> price_entries d)
  ∧ NoDup (EntryID <$> price_entries d)
  ∧ (∀ e, e ∈ price_entries d → 1 ≤ EntryID e ≤ sqlite_sequence d)
  ∧ Z.of_nat (length (price_entries d)) = sqlite_sequence d.
Proof.
  intros Hd.
  assert (StronglySorted Z.lt (EntryID <$> price_entries d)
          ∧ (∀ e, e ∈ price_entries d → 1 ≤ EntryID e ≤ sqlite_sequence d)
          ∧ Z.of_nat (length (price_entries d)) = sqlite_sequence d)
    as (Hsorted & Hrange & Hlen).
  { induction Hd as [|io d product _ IH|io d productID price timestamp _ IH].
    - split_and!; [constructor | by intros e ?%not_elem_of_nil | done].
    - by destruct io.
    - destruct IH as (Hsorted & Hrange & Hlen). unfold DB.InsertPriceEntry.
      destruct io as [err|]; [done|]. destruct (is_nan price); [done|].
      destruct (foreign_keys d && _); [done|]. simpl. split_and!.
      + rewrite fmap_app. apply StronglySorted_app. split_and!; [|done|].
        * intros x1 x2 (e & -> & He)%list_elem_of_fmap ->%list_elem_of_singleton.
          apply Hrange in He. simpl. lia.
        * simpl. repeat constructor.
      + intros e [He | ->%list_elem_of_singleton]%elem_of_app.
        * apply Hrange in He. lia.
        * simpl. lia.
      + rewrite length_app, Nat2Z.inj_add. change (length [_]) with 1%nat. lia. }
  split_and!; try done.
  clear Hrange Hlen. induction Hsorted as [|x l Hs IH Hall]; constructor; [|done].
  intros Hx. rewrite Forall_forall in Hall. apply Hall in Hx. lia.
Qed.
End store_invariants.

Lemma store_entry_ids_increasing_witness :
  store_reachable (DB.InsertPriceEntry None (DB.InsertPriceEntry None sample_db "a" 10 1).1 "b" 20 2).1
  ∧ EntryID <$> price_entries
      (DB.InsertPriceEntry None (DB.InsertPriceEntry None sample_db "a" 10 1).1 "b" 20 2).1
    = [1; 2]
  ∧ NoDup (EntryID <$> price_entries
      (DB.InsertPriceEntry None (DB.InsertPriceEntry None sample_db "a" 10 1).1 "b" 20 2).1).
Proof.
  assert (store_reachable
            (DB.InsertPriceEntry None (DB.InsertPriceEntry None sample_db "a" 10 1).1
               "b" 20 2).1) as Hd.
  { do 2 apply reach_entry. unfold sample_db. do 2 apply reach_product. apply reach_new. }
  split; [exact Hd|]. split; [reflexivity|].
  apply (store_entry_ids_increasing _ Hd).
Defined.

Section hydration.
Implicit Types (d : Database) (p : Product) (pt : PriceTracker).

Lemma foldl_insert_fresh (l : list Product) (m : gmap string Product) k :
  k ∉ ID <$> l →
  foldl (λ m product, <[ID product := product]> m) m l !! k = m !! k.
Proof.
  revert m. induction l as [|x l IH]; intros m Hk; simpl; [done|].
  rewrite fmap_cons, not_elem_of_cons in Hk. destruct Hk as [Hne Hk].
  rewrite IH by done. by rewrite lookup_insert_ne.
Qed.

Lemma foldl_insert_member (l : list Product) (m : gmap string Product) p :
  NoDup (ID <$> l) → p ∈ l →
  foldl (λ m product, <[ID product := product]> m) m l !! ID p = Some p.
Proof.
  revert m. induction l as [|x l IH]; intros m Hnd Hp; [by apply not_elem_of_nil in Hp|].
  rewrite fmap_cons, NoDup_cons in Hnd. destruct Hnd as [Hx Hnd]. simpl.
  apply elem_of_cons in Hp as [-> | Hp].
  - rewrite foldl_insert_fresh by done. apply lookup_insert_eq.
  - by apply IH.
Qed.

Lemma NewPriceTracker_loads (d : Database) :
  NoDup (ID <$> products_tbl d) →
  registry_mirrors_store (Tracker.NewPriceTracker None d).
Proof.
  intros Hnd k p. unfold Tracker.NewPriceTracker, Tracker.loadProducts. simpl. split.
  - intros [[Hp Hk] | Hempty]%foldl_insert_lookup; [|done].
    by rewrite merge_sort_Permutation in Hp.
  - intros [Hp <-]. apply foldl_insert_member.
    + by rewrite merge_sort_Permutation.
    + by rewrite merge_sort_Permutation.
Qed.

(** X4.  On a store with unique product ids, [NewPriceTracker] whose load
    succeeds leaves a registry that holds exactly the rows of [products],
    each under its id, and as many entries as there are rows.  When the
    load fails the tracker starts with an empty registry on the same
    store. *)
Theorem NewPriceTracker_mirrors_store (d : Database) :
  NoDup (ID <$> products_tbl d) →
  registry_mirrors_store (Tracker.NewPriceTracker None d)
  ∧ db (Tracker.NewPriceTracker None d) = d
  ∧ size (products (Tracker.NewPriceTracker None d)) = length (products_tbl d)
  ∧ (∀ err, Tracker.NewPriceTracker (Some err) d = {| db := d; products := ∅ |}).
Proof.
  intros Hnd.
  pose proof (NewPriceTracker_loads d Hnd) as Hmirror.
  split_and!; [done | done | | done].
  rewrite <- (length_fmap ID (products_tbl d)).
  rewrite <- length_map_to_list.
  rewrite <- (length_fmap fst (map_to_list _)).
  apply Permutation_length, NoDup_Permutation.
  - apply NoDup_fst_map_to_list.
  - done.
  - intros k. rewrite !list_elem_of_fmap. split.
    + intros ([k' p] & -> & Hkp%elem_of_map_to_list). simpl.
      apply Hmirror in Hkp as [Hp <-]. eauto.
    + intros (p & -> & Hp). exists (ID p, p). split; [done|].
      apply elem_of_map_to_list, Hmirror. done.
Qed.
End hydration.

Lemma NewPriceTracker_mirrors_store_witness :
  NoDup (ID <$> products_tbl sample_db)
  ∧ products (Tracker.NewPriceTracker None sample_db) !! "b"%string = Some sample_b
  ∧ size (products (Tracker.NewPriceTracker None sample_db)) = 2%nat.
Proof.
  assert (NoDup (ID <$> products_tbl sample_db)) as Hnd.
  { unfold sample_db. do 2 apply (InsertProduct_ids_NoDup None). constructor. }
  split; [exact Hnd|]. split; [reflexivity|].
  apply (NewPriceTracker_mirrors_store sample_db Hnd).
Defined.

Section registration_algebra.
Implicit Types (d : Database) (p : Product) (pt : PriceTracker).

Lemma filter_other_ids_idem (l : list Product) p :
  filter (λ q, ID q ≠ ID p) (filter (λ q, ID q ≠ ID p) l ++ [p])
  = filter (λ q, ID q ≠ ID p) l.
Proof.
  rewrite filter_app, filter_cons_False, filter_nil, app_nil_r by (by intros ?).
  induction l as [|q l IH]; [done|].
  destruct (decide (ID q ≠ ID p)) as [Hne|Heq].
  - rewrite (filter_cons_True _ q l) by done. rewrite filter_cons_True by done.
    by rewrite IH.
  - by rewrite (filter_cons_False _ q l) by done.
Qed.

(** X6.  [AddProduct] is idempotent: registering the same product twice
    in a row gives the same tracker and the same result as registering
    it once.  Registering an id that is already in the registry keeps
    its size, a new id adds one; on a store with unique ids, registering
    an id the store holds keeps the number of rows. *)
Theorem AddProduct_idempotent (pt : PriceTracker) (product : Product) :
  Tracker.AddProduct None (Tracker.AddProduct None pt product).1 product
    = Tracker.AddProduct None pt product
  ∧ (is_Some (products pt !! ID product) →
     size (products (Tracker.AddProduct None pt product).1) = size (products pt))
  ∧ (products pt !! ID product = None →
     size (products (Tracker.AddProduct None pt product).1) = S (size (products pt)))
  ∧ (NoDup (ID <$> products_tbl (db pt)) →
     ID product ∈ ID <$> products_tbl (db pt) →
     length (products_tbl (db (Tracker.AddProduct None pt product).1))
       = length (products_tbl (db pt))).
Proof.
  split_and!.
  - unfold Tracker.AddProduct. simpl. f_equal. f_equal.
    + f_equal. by rewrite filter_other_ids_idem.
    + apply insert_insert_eq.
  - intros [q Hq]. simpl.
    rewrite <- (insert_delete_id (products pt) (ID product) q Hq) at 2.
    rewrite <- insert_delete_eq.
    rewrite !map_size_insert_None by apply lookup_delete_eq. done.
  - intros Hnone. simpl. by apply map_size_insert_None.
  - intros Hnd Hin. simpl. rewrite length_app. simpl.
    apply list_elem_of_fmap in Hin as (q & Hid & Hq).
    pose proof (filter_app_complement (λ r, ID r ≠ ID product) (products_tbl (db pt)))
      as Hsplit.
    apply Permutation_length in Hsplit. rewrite length_app in Hsplit.
    assert (filter (λ r, ¬ ID r ≠ ID product) (products_tbl (db pt)) = [q]) as Hone.
    { rewrite <- (filter_id_NoDup (products_tbl (db pt)) q Hnd Hq).
      apply list_filter_iff. intros r. rewrite <- Hid.
      destruct (decide (ID r = ID product)) as [He|Hne]; split;
        [done | by intros _ ? | intros Hnn; by destruct Hnn | done]. }
    rewrite Hone in Hsplit. simpl in Hsplit. lia.
Qed.

(** X5.  When the registry holds exactly the rows of a store with unique
    ids, it still does after [AddProduct], whether the write succeeds or
    fails, and the ids stay unique.  A restart then loads the same
    registry: [NewPriceTracker] on the store [AddProduct] left has the
    registry [AddProduct] left. *)
Theorem AddProduct_then_restart (io : option error) (pt : PriceTracker) (product : Product) :
  NoDup (ID <$> products_tbl (db pt)) →
  registry_mirrors_store pt →
  registry_mirrors_store (Tracker.AddProduct io pt product).1
  ∧ NoDup (ID <$> products_tbl (db (Tracker.AddProduct io pt product).1))
  ∧ products (Tracker.NewPriceTracker None (db (Tracker.AddProduct io pt product).1))
      = products (Tracker.AddProduct io pt product).1.
Proof.
  intros Hnd Hmirror.
  assert (registry_mirrors_store (Tracker.AddProduct io pt product).1) as Hm'.
  { destruct io as [err|]; [done|]. intros k q. simpl.
    rewrite elem_of_app, list_elem_of_filter, list_elem_of_singleton.
    destruct (decide (ID product = k)) as [<-|Hne].
    - rewrite lookup_insert_eq. split.
      + intros [= <-]. split; [by right | done].
      + intros [[[Hne _] | ->] Hid]; [done | done].
    - rewrite lookup_insert_ne by done. rewrite (Hmirror k q). split.
      + intros [Hq Hid]. split; [|done]. left. split; [congruence | done].
      + intros [[[_ Hq] | ->] Hid]; [done | done]. }
  assert (NoDup (ID <$> products_tbl (db (Tracker.AddProduct io pt product).1)))
    as Hnd'.
  { destruct io as [err|]; [done|]. by apply (InsertProduct_ids_NoDup None). }
  split_and!; [done | done |].
  apply map_eq. intros k. apply option_eq. intros q.
  rewrite (NewPriceTracker_loads _ Hnd' k q), (Hm' k q). done.
Qed.
End registration_algebra.

Lemma AddProduct_then_restart_witness :
  NoDup (ID <$> products_tbl DB.NewDatabase)
  ∧ products (Tracker.NewPriceTracker None
                (db (Tracker.AddProduct None
                       (Tracker.NewPriceTracker None DB.NewDatabase) sample_a).1))
    = products (Tracker.AddProduct None
                  (Tracker.NewPriceTracker None DB.NewDatabase) sample_a).1.
Proof.
  split; [constructor|].
  apply (AddProduct_then_restart None (Tracker.NewPriceTracker None DB.NewDatabase) sample_a).
  - constructor.
  - intros k p. split; [done|]. by intros [?%not_elem_of_nil _].
Defined.

Section store_round_trips.
Implicit Types (d : Database) (e : PriceEntry) (p : Product).

(** X1.  [GetAllProducts] returns rows of [products] in ascending
    bytewise order of name.  When the read succeeds they are all the
    rows, each once, with a nil error; when it fails the result is no
    rows and the driver's error. *)
Theorem GetAllProducts_sorted_permutation (io : option error) (d : Database) :
  StronglySorted (λ a b, name_le (Name a) (Name b)) (DB.GetAllProducts io d).1
  ∧ (io = None →
     (DB.GetAllProducts io d).2 = None
     ∧ (DB.GetAllProducts io d).1 ≡ₚ products_tbl d)
  ∧ (∀ err, io = Some err → DB.GetAllProducts io d = ([], Some err))
  ∧ (∀ p, p ∈ (DB.GetAllProducts io d).1 → p ∈ products_tbl d).
Proof.
  split_and!.
  - destruct io as [err|]; simpl; [constructor|].
    apply (StronglySorted_merge_sort by_name).
  - intros ->. split; [done|]. apply merge_sort_Permutation.
  - by intros err ->.
  - destruct io as [err|]; simpl; [by intros p ?%not_elem_of_nil|].
    intros p. by rewrite merge_sort_Permutation.
Qed.

(** X7.  After a successful [InsertProduct], [ProductExists] answers
    true for the product's id and answers for every other id as before,
    and the tracker's [GetPriceHistory] for that id returns no error
    when its reads succeed.  When the count cannot be read
    [ProductExists] returns false together with the error. *)
Theorem InsertProduct_then_exists (d : Database) (product : Product) (productID : string) :
  DB.ProductExists None (DB.InsertProduct None d product).1 (ID product) = (true, None)
  ∧ (productID ≠ ID product →
     DB.ProductExists None (DB.InsertProduct None d product).1 productID
       = DB.ProductExists None d productID)
  ∧ (∀ products limit,
       (Tracker.GetPriceHistory None None
          {| db := (DB.InsertProduct None d product).1; products := products |}
          (ID product) limit).2 = None)
  ∧ (∀ err, DB.ProductExists (Some err) d productID = (false, Some err)).
Proof.
  split_and!.
  - rewrite ProductExists_ok. f_equal. apply bool_decide_eq_true_2.
    apply list_elem_of_fmap. exists product. split; [done|].
    simpl. apply elem_of_app. right. left.
  - intros Hne. rewrite !ProductExists_ok. f_equal. apply bool_decide_ext.
    rewrite !list_elem_of_fmap. split; intros (q & -> & Hq); exists q; (split; [done|]).
    + by apply (elem_of_InsertProduct_other d product q).
    + by apply (elem_of_InsertProduct_other d product q).
  - intros products limit. unfold Tracker.GetPriceHistory. cbn [db].
    rewrite ProductExists_ok. rewrite bool_decide_eq_true_2; [done|].
    apply list_elem_of_fmap. exists product. split; [done|].
    simpl. apply elem_of_app. right. left.
  - done.
Qed.

End store_round_trips.

Section latest_and_history.
Implicit Types (d : Database) (e : PriceEntry) (p : Product).







End latest_and_history.

Section history_handler.
Implicit Types (pt : PriceTracker).



End history_handler.

Section round_rows.
Import Round.

Lemma persisted_append (attempts : list (PriceEntry * option error)) (d : Database) :
  ∃ rows,
    price_entries (foldl persist d attempts) = price_entries d ++ rows
    ∧ ProductID <$> rows `sublist_of` ProductID <$> attempts.*1
    ∧ (∀ r, r ∈ rows →
         ∃ a, a ∈ attempts ∧ ProductID r = ProductID a.1
              ∧ Price r = Price a.1 ∧ Timestamp r = Timestamp a.1).
Proof.
  revert d. induction attempts as [|a l IH]; intros d; simpl.
  - exists []. rewrite app_nil_r. split_and!; [done | done |].
    by intros r ?%not_elem_of_nil.
  - destruct (IH (persist d a)) as (rows & Hrows & Hsub & Hfrom). unfold persist in *.
    destruct (a.2).
    + exists rows. split_and!; [done | by apply sublist_cons |].
      intros r (a' & Ha' & Hr)%Hfrom. exists a'. split; [by right | done].
    + simpl in Hrows. rewrite <- (assoc_L (++)) in Hrows.
      eexists. split_and!; [exact Hrows | simpl; by apply sublist_skip |].
      intros r [-> | Hr]%elem_of_cons.
      * exists a. split; [left | done].
      * apply Hfrom in Hr as (a' & Ha' & Hr). exists a'. split; [by right | done].
Qed.

Lemma produced_ids evs : ProductID <$> produced evs `sublist_of` ID <$> fetched evs.
Proof.
  induction evs as [|ev evs IH]; [done|].
  change (ev :: evs) with ([ev] ++ evs).
  rewrite produced_app, fetched_app, !fmap_app. apply sublist_app; [|done].
  destruct ev as [w p price now| |]; simpl; try done.
  unfold produced, Tracker.priceWorker_body. simpl.
  destruct (0 <? price)%float; simpl; [done | by apply sublist_cons].
Qed.

Lemma round_rows snapshot d0 s :
  Inv snapshot d0 s →
  ∃ rows,
    price_entries (store s) = price_entries d0 ++ rows
    ∧ ProductID <$> rows ⊆+ ID <$> snapshot
    ∧ (∀ r, r ∈ rows →
         ∃ e, e ∈ produced (events s)
              ∧ ProductID r = ProductID e ∧ Price r = Price e
              ∧ Timestamp r = Timestamp e).
Proof.
  intros HInv.
  destruct (persisted_append (inserts (events s)) d0) as (rows & Hrows & Hsub & Hfrom).
  exists rows. rewrite (inv_store _ _ _ HInv). split_and!; [done | |].
  - apply sublist_submseteq in Hsub. etrans; [exact Hsub|].
    assert ((inserts (events s)).*1 ⊆+ produced (events s)) as Hins.
    { rewrite (inv_produced _ _ _ HInv), (inv_out _ _ _ HInv).
      rewrite <- (assoc_L (++)). by apply submseteq_inserts_r. }
    etrans; [apply (fmap_submseteq ProductID), Hins|].
    etrans; [apply sublist_submseteq, produced_ids|].
    apply (fmap_submseteq ID). rewrite (inv_flow _ _ _ HInv).
    by apply submseteq_inserts_r.
  - intros r (a & Ha & Hr)%Hfrom. exists a.1.
    split; [by eapply inserts_produced | done].
Qed.

(** X12.  A round only appends to [price_entries] and leaves [products]
    alone: at any moment the table is the one the round started on
    followed by new rows.  The product ids of the new rows are, with
    multiplicity, among those of the snapshot, so there are at most N of
    them and, for a snapshot of distinct ids, at most one per product.
    Each new row carries the product id, value and time of an entry a
    worker produced in this round. *)
Theorem round_appends_one_row_per_product
    (snapshot : list Product) (d0 : Database) (sched : list Action) (s : State) :
  run sched (trackAllProducts snapshot d0) = Some s →
  products_tbl (store s) = products_tbl d0
  ∧ ∃ rows,
      price_entries (store s) = price_entries d0 ++ rows
      ∧ ProductID <$> rows ⊆+ ID <$> snapshot
      ∧ (length rows ≤ length snapshot)%nat
      ∧ (NoDup (ID <$> snapshot) → NoDup (ProductID <$> rows))
      ∧ (∀ r, r ∈ rows →
           ∃ e, e ∈ produced (events s)
                ∧ ProductID r = ProductID e ∧ Price r = Price e
                ∧ Timestamp r = Timestamp e).
Proof.
  intros Hrun.
  pose proof (run_inv _ _ _ _ _ (init_inv snapshot d0) Hrun) as HInv.
  split.
  { rewrite (inv_store _ _ _ HInv).
    by destruct (persisted_products (inserts (events s)) d0). }
  destruct (round_rows _ _ _ HInv) as (rows & Hrows & Hsub & Hfrom).
  exists rows. split_and!; [done | done | | | done].
  - apply submseteq_length in Hsub. by rewrite !length_fmap in Hsub.
  - intros Hnd. apply submseteq_Permutation in Hsub as [k Hk].
    rewrite Hk in Hnd. by apply NoDup_app in Hnd as [? _].
Qed.

Lemma round_appends_one_row_per_product_witness :
  ∃ s, run two_product_schedule (trackAllProducts [sample_a; sample_b] sample_db) = Some s
       ∧ price_entries (store s)
           = [ {| EntryID := 1; ProductID := "a"; Price := 10; Timestamp := 5 |} ]
       ∧ products_tbl (store s) = products_tbl sample_db.
Proof.
  eexists. split; [vm_compute; reflexivity|]. split; [reflexivity|].
  eapply (round_appends_one_row_per_product [sample_a; sample_b] sample_db
            two_product_schedule).
  vm_compute. reflexivity.
Defined.

(** X13.  With both channels buffered for [len(products)] values no send
    of a round blocks or hits a closed channel: in every state a round
    can reach, the sender can send while it has products left, a worker
    that holds an entry can forward it, neither buffer holds more than
    its capacity, and some goroutine can step until [trackAllProducts]
    returns. *)
Theorem round_sends_never_block
    (snapshot : list Product) (d0 : Database) (sched : list Action) (s : State) :
  run sched (trackAllProducts snapshot d0) = Some s →
  (unsent s ≠ [] → is_Some (step SendProduct s))
  ∧ (∀ w entry, workers s !! w = Some (Sending entry) → is_Some (step (Forward w) s))
  ∧ (length (buf (productChan s)) ≤ capacity s)%nat
  ∧ (length (buf (resultChan s)) ≤ capacity s)%nat
  ∧ (returned s = false → ∃ a s', step a s = Some s').
Proof.
  intros Hrun.
  pose proof (run_inv _ _ _ _ _ (init_inv snapshot d0) Hrun) as HInv.
  pose proof (inv_flow _ _ _ HInv) as Hflow. apply Permutation_length in Hflow.
  rewrite !length_app in Hflow. rewrite <- (inv_capacity _ _ _ HInv) in Hflow.
  split_and!.
  - intros Hu. unfold step, can_send.
    destruct (unsent s) as [|p rest] eqn:E; [done|].
    destruct (closed (productChan s)) eqn:Hc.
    { apply (inv_products_closed _ _ _ HInv) in Hc. congruence. }
    simpl in *. rewrite bool_decide_eq_true_2 by lia. by eexists.
  - intros w entry Hw. unfold step, can_send. rewrite Hw.
    destruct (closed (resultChan s)) eqn:Hc.
    { apply (inv_results_closed _ _ _ HInv) in Hc.
      by apply (all_done_lookup _ _ _ Hc) in Hw. }
    simpl. rewrite bool_decide_eq_true_2 by by eapply result_room. by eexists.
  - lia.
  - pose proof (produced_length (events s)) as Hlen.
    pose proof (inv_produced _ _ _ HInv) as Hprod. apply Permutation_length in Hprod.
    rewrite (inv_out _ _ _ HInv), !length_app in Hprod.
    unfold fetched in Hlen. rewrite length_fmap in Hlen.
    unfold fetched in Hflow. rewrite length_fmap in Hflow. lia.
  - by apply (progress snapshot d0).
Qed.

Lemma round_sends_never_block_witness :
  ∃ s, run [SendProduct; Receive 0; Fetch 0 10 5]
           (trackAllProducts [sample_a; sample_b] sample_db) = Some s
       ∧ workers s !! 0%nat
           = Some (Sending {| EntryID := 0; ProductID := "a"; Price := 10; Timestamp := 5 |})
       ∧ is_Some (step (Forward 0) s).
Proof.
  eexists. split; [vm_compute; reflexivity|]. split; [reflexivity|].
  eapply (round_sends_never_block [sample_a; sample_b] sample_db
            [SendProduct; Receive 0; Fetch 0 10 5]).
  - vm_compute. reflexivity.
  - reflexivity.
Defined.
End round_rows.

Section tracking_loop.
Import Scheduler.
Implicit Types (pt : PriceTracker).

Lemma snapshot_length pt snapshot :
  Tracker.is_snapshot pt snapshot → length snapshot = size (products pt).
Proof.
  unfold Tracker.is_snapshot. intros ->%Permutation_length.
  by rewrite length_fmap, length_map_to_list.
Qed.

Lemma StartTracking_frame pt signals loop pt' :
  StartTracking pt signals loop pt' →
  products pt' = products pt
  ∧ products_tbl (db pt') = products_tbl (db pt)
  ∧ price_entries (db pt) `prefix_of` price_entries (db pt')
  ∧ (length (price_entries (db pt'))
     ≤ length (price_entries (db pt)) + rounds signals * size (products pt))%nat
  ∧ (loop = Stopped ↔ Cancelled ∈ signals)
  ∧ (tracker_ok pt → tracker_ok pt').
Proof.
  induction 1 as [pt|pt rest|pt snapshot sched s rest loop pt' Hsnap Hrun Hret _ IH].
  - split_and!; try done; [simpl; lia|]. split; [done | by intros ?%not_elem_of_nil].
  - split_and!; try done; [simpl; lia|]. split; [intros _; left | done].
  - destruct IH as (Hreg & Htbl & Hprefix & Hlen & Hloop & Hok).
    simpl in Hreg, Htbl, Hprefix, Hlen, Hok.
    pose proof (run_inv _ _ _ _ _ (init_inv snapshot (db pt)) Hrun) as HInv.
    destruct (round_rows _ _ _ HInv) as (rows & Hrows & Hsub & _).
    apply submseteq_length in Hsub. rewrite !length_fmap in Hsub.
    rewrite (snapshot_length _ _ Hsnap) in Hsub.
    split_and!.
    + done.
    + rewrite Htbl, (Round.inv_store _ _ _ HInv).
      by destruct (persisted_products (Round.inserts (Round.events s)) (db pt)).
    + etrans; [|exact Hprefix]. rewrite Hrows. by apply prefix_app_r.
    + rewrite Hrows, length_app in Hlen. simpl. lia.
    + rewrite Hloop. rewrite elem_of_cons. split; [by right | by intros [?|?]].
    + intros Hpt. apply Hok. by eapply round_ok.
Qed.

(** X14.  The tracking loop runs its rounds one after the other and only
    appends: after any signals the registry and [products] are as at the
    start, the price entries at the start are a prefix of those at the
    end, and at most (rounds run) x (registered products) rows were
    added.  The loop has returned exactly when a cancellation was taken,
    and what follows a cancellation changes nothing. *)
Theorem StartTracking_appends_only
    (pt : PriceTracker) (signals : list Signal) (loop : Loop) (pt' : PriceTracker) :
  StartTracking pt signals loop pt' →
  products pt' = products pt
  ∧ products_tbl (db pt') = products_tbl (db pt)
  ∧ price_entries (db pt) `prefix_of` price_entries (db pt')
  ∧ (length (price_entries (db pt'))
     ≤ length (price_entries (db pt)) + rounds signals * size (products pt))%nat
  ∧ (loop = Stopped ↔ Cancelled ∈ signals)
  ∧ (∀ more loop' pt'',
       loop = Stopped → StartTracking pt (signals ++ more) loop' pt'' →
       loop' = Stopped ∧ pt'' = pt').
Proof.
  intros Hrun. destruct (StartTracking_frame _ _ _ _ Hrun) as (? & ? & ? & ? & ? & _).
  split_and!; try done.
  intros more loop' pt'' -> Hmore. clear -Hrun Hmore.
  remember Stopped as loop eqn:Hloop.
  induction Hrun as [pt|pt rest|pt snapshot sched s rest loop pt' Hsnap Hr Hret Hrest IH];
    [done | |].
  - by inversion Hmore.
  - simpl in Hmore. inversion Hmore as [| |? ? ? s2 ? ? ? Hsnap2 Hr2 Hret2 Hrest2]; subst.
    rewrite Hr in Hr2. injection Hr2 as <-. by apply IH.
Qed.

Lemma tracker_reachable_ok_aux pt :
  tracker_reachable pt → tracker_ok pt ∧ NoDup (ID <$> products_tbl (db pt)).
Proof.
  induction 1 as [io|io pt product _ [Hok Hnd]|pt signals loop pt' _ [Hok Hnd] Hrun
                 |io pt _ [Hok Hnd]].
  - split; [apply NewPriceTracker_ok; by intros e ?%not_elem_of_nil|].
    destruct io; constructor.
  - split; [by apply AddProduct_ok|].
    unfold Tracker.AddProduct. destruct io as [err|]; [done|].
    by apply (InsertProduct_ids_NoDup None).
  - destruct (StartTracking_frame _ _ _ _ Hrun) as (_ & Htbl & _ & _ & _ & Hok').
    split; [by apply Hok' | by rewrite Htbl].
  - split.
    + apply NewPriceTracker_ok. by destruct Hok as (_ & _ & ?).
    + by destruct io.
Qed.

(** X15.  Every tracker the program can have (started on a new database;
    changed by registrations, the tracking loop and restarts; under any
    driver errors) keeps: every price entry refers to a row of
    [products], product ids are unique, every registry entry is filed
    under its product's id and has a row in [products], so a history
    request for a registered id is never answered "not found"; and a
    snapshot has distinct ids, all of them in the store. *)
Theorem tracker_reachable_consistent (pt : PriceTracker) :
  tracker_reachable pt →
  referential_integrity (db pt)
  ∧ NoDup (ID <$> products_tbl (db pt))
  ∧ (∀ k p, products pt !! k = Some p →
            ID p = k ∧ k ∈ ID <$> products_tbl (db pt)
            ∧ ∀ limit, (Tracker.GetPriceHistory None None pt k limit).2 = None)
  ∧ (∀ snapshot, Tracker.is_snapshot pt snapshot →
                 NoDup (ID <$> snapshot)
                 ∧ ∀ p, p ∈ snapshot → ID p ∈ ID <$> products_tbl (db pt)).
Proof.
  intros [(Hkeyed & Hsub & Hri) Hnd]%tracker_reachable_ok_aux.
  split_and!; [done | done | |].
  - intros k p Hkp. split_and!; [by apply Hkeyed | by eapply Hsub |].
    intros limit. unfold Tracker.GetPriceHistory.
    rewrite ProductExists_ok, bool_decide_eq_true_2 by by eapply Hsub. done.
  - intros snapshot Hsnap. split; [by eapply snapshot_NoDup|].
    intros p Hp. unfold Tracker.is_snapshot in Hsnap. rewrite Hsnap in Hp.
    apply list_elem_of_fmap in Hp as ([k q] & -> & Hkq%elem_of_map_to_list).
    simpl. rewrite (Hkeyed _ _ Hkq). by eapply Hsub.
Qed.
End tracking_loop.

Lemma sample_snapshot : Tracker.is_snapshot sample_tracker [sample_a; sample_b].
Proof. unfold Tracker.is_snapshot. vm_compute. reflexivity. Qed.

Lemma StartTracking_appends_only_witness :
  ∃ pt',
    Scheduler.StartTracking sample_tracker
      [Scheduler.Tick [sample_a; sample_b] two_product_schedule; Scheduler.Cancelled]
      Scheduler.Stopped pt'
    ∧ price_entries (db pt')
        = [ {| EntryID := 1; ProductID := "a"; Price := 10; Timestamp := 5 |} ]
    ∧ products pt' = products sample_tracker.
Proof.
  assert (∃ s, Round.run two_product_schedule
                 (Round.trackAllProducts [sample_a; sample_b] (db sample_tracker)) = Some s
               ∧ Round.returned s = true
               ∧ price_entries (Round.store s)
                 = [ {| EntryID := 1; ProductID := "a"; Price := 10; Timestamp := 5 |} ])
    as (s & Hrun & Hret & Hrows).
  { eexists. split; [vm_compute; reflexivity|]. split; reflexivity. }
  assert (Scheduler.StartTracking sample_tracker
            [Scheduler.Tick [sample_a; sample_b] two_product_schedule; Scheduler.Cancelled]
            Scheduler.Stopped {| db := Round.store s; products := products sample_tracker |})
    as Htrack.
  { eapply Scheduler.tracking_round; [apply sample_snapshot | exact Hrun | exact Hret |].
    apply Scheduler.tracking_stops. }
  eexists. split; [exact Htrack|]. split; [exact Hrows|].
  apply (StartTracking_appends_only _ _ _ _ Htrack).
Defined.

Lemma tracker_reachable_consistent_witness :
  tracker_reachable sample_tracker
  ∧ NoDup (ID <$> products_tbl (db sample_tracker)).
Proof.
  assert (tracker_reachable sample_tracker) as Hreach
    by (unfold sample_tracker; do 2 apply treach_add; apply treach_start).
  split; [exact Hreach|].
  by destruct (tracker_reachable_consistent sample_tracker Hreach) as (_ & Hnd & _).
Defined.
